(** * RNTupleView: index ranges and field views of the RNTuple read side

    A shallow embedding of [tree/ntuple/v7/inc/ROOT/RNTupleView.hxx]:
    the two index ranges with their forward iterators, the typed view
    [RNTupleView<T>], the untyped view [RNTupleView<void>] and
    [RNTupleCollectionView].  The headers the file includes
    ([ROOT/RNTupleUtil.hxx], [ROOT/RField.hxx]) are interfaces here. *)

From Stdlib Require Import ZArith List String Bool Lia.
Import ListNotations.

Local Open Scope Z_scope.

(** ** [ROOT/RNTupleUtil.hxx]: integer types and sentinels *)

(** The integer typedefs and constants of [ROOT/RNTupleUtil.hxx].  The header
    is not among the sources verified here, so the widths of the unsigned
    types and the values of the sentinels are parameters of the development. *)
Class RNTupleUtil := {
  (** width in bits of [NTupleSize_t] *)
  index_bits : Z;
  (** width in bits of [ClusterSize_t::ValueType] *)
  cluster_bits : Z;
  kInvalidNTupleIndex : Z;
  kInvalidDescriptorId : Z;
}.

Definition NTupleSize_t := Z.
Definition DescriptorId_t := Z.
Definition ClusterSize_t := Z.

(** Unsigned arithmetic at width [bits] wraps around. *)
Definition wrap (bits : Z) (x : Z) : Z := x mod 2 ^ bits.

Definition in_range (bits : Z) (x : Z) : Prop := 0 <= x < 2 ^ bits.

(** Modelled from the spec: [RClusterIndex] is declared in
    [ROOT/RNTupleUtil.hxx], which is missing.  The spec describes it as the
    pair (ClusterId, offset), an index local to one cluster; advancing
    increments the offset by one step and stays in the cluster, and equality
    compares the index value. *)
Record RClusterIndex := mkRClusterIndex {
  GetClusterId : DescriptorId_t;
  GetIndex : ClusterSize_t;
}.

Definition RClusterIndex_eqb (a b : RClusterIndex) : bool :=
  (GetClusterId a =? GetClusterId b) && (GetIndex a =? GetIndex b).

Definition RClusterIndex_incr `{RNTupleUtil} (a : RClusterIndex) : RClusterIndex :=
  mkRClusterIndex (GetClusterId a) (wrap cluster_bits (GetIndex a + 1)).

(** ** Forward iterators and the range-based [for] loop *)

(** What a range-based [for] uses of an iterator: [operator!=], [operator*]
    and the prefix [operator++]. *)
Class ForwardIterator (It V : Type) := {
  it_neq : It -> It -> bool;
  it_deref : It -> V;
  it_preinc : It -> It;
}.

(** [for (auto i : range) yield i], given [range.begin()] and [range.end()].
    The loop has no bound of its own; [fuel] bounds the number of
    comparisons, and [None] means the fuel ran out. *)
Fixpoint range_for {It V} `{ForwardIterator It V} (fuel : nat) (it last : It)
  : option (list V) :=
  match fuel with
  | O => None
  | S fuel' =>
    if it_neq it last
    then option_map (cons (it_deref it)) (range_for fuel' (it_preinc it) last)
    else Some []
  end.

(** ** [RNTupleGlobalRange] *)

Module GlobalRange.

Record RIterator := mkRIterator { fIndex : NTupleSize_t }.

(** [RIterator() = default]: [fIndex = kInvalidNTupleIndex]. *)
Definition RIterator_default `{RNTupleUtil} : RIterator :=
  mkRIterator kInvalidNTupleIndex.

(** [operator++(int)]: returns the old iterator, the new one is the state. *)
Definition postinc `{RNTupleUtil} (it : RIterator) : RIterator * RIterator :=
  (it, mkRIterator (wrap index_bits (fIndex it + 1))).
(** [operator++()] *)
Definition preinc `{RNTupleUtil} (it : RIterator) : RIterator :=
  mkRIterator (wrap index_bits (fIndex it + 1)).
(** [operator*] *)
Definition deref (it : RIterator) : NTupleSize_t := fIndex it.
(** [operator==] *)
Definition eqb (it rh : RIterator) : bool := fIndex it =? fIndex rh.
(** [operator!=] *)
Definition neqb (it rh : RIterator) : bool := negb (fIndex it =? fIndex rh).

#[global] Instance iterator `{RNTupleUtil} : ForwardIterator RIterator NTupleSize_t :=
  {| it_neq := neqb; it_deref := deref; it_preinc := preinc |}.

Record RNTupleGlobalRange := mkRange {
  fStart : NTupleSize_t;
  fEnd : NTupleSize_t;
}.

Definition begin (r : RNTupleGlobalRange) : RIterator := mkRIterator (fStart r).
Definition end_ (r : RNTupleGlobalRange) : RIterator := mkRIterator (fEnd r).

(** One pass of a range-based [for] over the range object. *)
Definition iterate `{RNTupleUtil} (fuel : nat) (r : RNTupleGlobalRange)
  : option (list NTupleSize_t) :=
  range_for fuel (begin r) (end_ r).

End GlobalRange.

(** ** [RNTupleClusterRange] *)

Module ClusterRange.

Record RIterator := mkRIterator { fIndex : RClusterIndex }.

(** [operator++(int)] *)
Definition postinc `{RNTupleUtil} (it : RIterator) : RIterator * RIterator :=
  (it, mkRIterator (RClusterIndex_incr (fIndex it))).
(** [operator++()], written with [fIndex++] in the source *)
Definition preinc `{RNTupleUtil} (it : RIterator) : RIterator :=
  mkRIterator (RClusterIndex_incr (fIndex it)).
Definition deref (it : RIterator) : RClusterIndex := fIndex it.
Definition eqb (it rh : RIterator) : bool := RClusterIndex_eqb (fIndex it) (fIndex rh).
Definition neqb (it rh : RIterator) : bool :=
  negb (RClusterIndex_eqb (fIndex it) (fIndex rh)).

#[global] Instance iterator `{RNTupleUtil} : ForwardIterator RIterator RClusterIndex :=
  {| it_neq := neqb; it_deref := deref; it_preinc := preinc |}.

Record RNTupleClusterRange := mkRange {
  fClusterId : DescriptorId_t;
  fStart : ClusterSize_t;
  fEnd : ClusterSize_t;
}.

Definition begin (r : RNTupleClusterRange) : RIterator :=
  mkRIterator (mkRClusterIndex (fClusterId r) (fStart r)).
Definition end_ (r : RNTupleClusterRange) : RIterator :=
  mkRIterator (mkRClusterIndex (fClusterId r) (fEnd r)).

Definition iterate `{RNTupleUtil} (fuel : nat) (r : RNTupleClusterRange)
  : option (list RClusterIndex) :=
  range_for fuel (begin r) (end_ r).

End ClusterRange.

(** ** Exceptions, the call log and the effect monad *)

(** [R__FAIL(msg)] builds an [RError] from a message (and the source
    location, which is not kept here). *)
Record RError := mkRError { fMessage : string }.
Definition R__FAIL (msg : string) : RError := mkRError msg.

(** Modelled from the spec: the failure of the field object's read, map and
    collection-info operations on an index outside the field's bounds
    (section 7, OutOfRange); the field object is in the missing
    [ROOT/RField.hxx]. *)
Inductive FieldFailure :=
| OutOfRange.

(** What a call can throw: the [RException] this header raises itself, or a
    failure of the field object. *)
Inductive Exception :=
| RException (err : RError)
| FieldException (f : FieldFailure).

Inductive result (A : Type) :=
| Ok (a : A)
| Throw (e : Exception).
Arguments Ok {A} a.
Arguments Throw {A} e.

(** An index as the views take it: the [NTupleSize_t] overload or the
    [RClusterIndex] overload of an operation. *)
Inductive AnyIndex :=
| Global (globalIndex : NTupleSize_t)
| Local (clusterIndex : RClusterIndex).

(** The calls a view makes on the page source, the descriptor and its field,
    in the order they happen. *)
Inductive Event :=
| EvGetFieldDescriptor (fieldId : DescriptorId_t)
| EvFindFieldId (fieldName : string) (parentId : DescriptorId_t)
| EvGetName
| EvConnect (fieldId : DescriptorId_t)
| EvRead (idx : AnyIndex)
| EvMap (idx : AnyIndex)
| EvGetCollectionInfo (idx : AnyIndex).

(** The connection of a field to the column storage. *)
Definition is_connect (ev : Event) : bool :=
  match ev with
  | EvConnect _ => true
  | _ => false
  end.

(** A computation that appends to the call log and returns or throws. *)
Definition M (A : Type) : Type := list Event -> list Event * result A.

Definition ret {A} (a : A) : M A := fun log => (log, Ok a).

Definition throw {A} (e : Exception) : M A := fun log => (log, Throw e).

Definition bind {A B} (c : M A) (k : A -> M B) : M B :=
  fun log =>
    match c log with
    | (log', Ok a) => k a log'
    | (log', Throw e) => (log', Throw e)
    end.

(** A call of a collaborator: logged, then its outcome. *)
Definition call {A} (ev : Event) (r : result A) : M A :=
  fun log => (log ++ [ev], r).

Notation "x <- c1 ;; c2" := (bind c1 (fun x => c2))
  (at level 61, c1 at next level, right associativity).
Notation "' pat <- c1 ;; c2" := (bind c1 (fun x => match x with pat => c2 end))
  (at level 61, pat pattern, c1 at next level, right associativity).

(** Run from the empty log. *)
Definition run {A} (c : M A) : list Event * result A := c [].

(** The constructors of the two ranges as computations: they store their
    arguments and call nothing. *)
Definition RNTupleGlobalRange_new (start end_ : NTupleSize_t)
  : M GlobalRange.RNTupleGlobalRange :=
  ret (GlobalRange.mkRange start end_).

Definition RNTupleClusterRange_new (clusterId : DescriptorId_t) (start end_ : ClusterSize_t)
  : M ClusterRange.RNTupleClusterRange :=
  ret (ClusterRange.mkRange clusterId start end_).

(** The two exceptions the header raises, under the names the spec gives
    them. *)
Definition IncompatibleView : Exception :=
  RException (R__FAIL "view disallowed on field with mappable type and read callback").

Definition FieldNotFound (fieldName ntupleName : string) : Exception :=
  RException (R__FAIL ("no field named '" ++ fieldName ++ "' in RNTuple '"
                       ++ ntupleName ++ "'")).

(** The message of an exception; a failure of the field object carries
    none here. *)
Definition what (e : Exception) : string :=
  match e with
  | RException err => fMessage err
  | FieldException _ => EmptyString
  end.

(** [needle] occurs in [text]. *)
Definition contains (needle text : string) : Prop :=
  exists before after : string, text = (before ++ needle ++ after)%string.

(** The calls a view constructor makes. *)
Definition is_construction (ev : Event) : bool :=
  match ev with
  | EvGetFieldDescriptor _ | EvConnect _ => true
  | _ => false
  end.

(** ** [ROOT/RField.hxx]: the collaborators of a view *)

(** The page source and the descriptor it guards.  Both are declared in
    other headers; a view only calls what is listed here. *)
Class Storage := {
  RPageSource : Type;
  RNTupleDescriptor : Type;
  (** [pageSource->GetSharedDescriptorGuard()] *)
  GetSharedDescriptorGuard : RPageSource -> RNTupleDescriptor;
  (** [desc.GetFieldDescriptor(fieldId).GetFieldName()] *)
  GetFieldName : RNTupleDescriptor -> DescriptorId_t -> result string;
  (** [desc.FindFieldId(fieldName, parentId)] *)
  FindFieldId : RNTupleDescriptor -> string -> DescriptorId_t -> DescriptorId_t;
  (** [desc.GetName()] *)
  GetName : RNTupleDescriptor -> string;
  (** [RFieldBase::kTraitMappable] *)
  kTraitMappable : Z;
}.

(** What the views use of [RFieldBase] and of the [RValue] it creates.  [F] is
    the field object, [V] the content of the value object. *)
Class RFieldBase `{Storage} (F V : Type) := {
  (** the object a fresh [RValue] of the field owns *)
  CreateValue : F -> V;
  SetOnDiskId : DescriptorId_t -> F -> F;
  (** [Internal::CallConnectPageSourceOnField(field, pageSource)] *)
  CallConnectPageSourceOnField : F -> RPageSource -> result F;
  GetTraits : F -> Z;
  HasReadCallbacks : F -> bool;
  GetNElements : F -> NTupleSize_t;
  (** [RValue::Read(index)]: the field reads the element into the object of
      the value; the outcome is the new content *)
  Read : F -> AnyIndex -> result V;
  (** [desc.GetFieldDescriptor(fieldId).CreateField(desc)] *)
  CreateField : RNTupleDescriptor -> DescriptorId_t -> result F;
}.

(** [RField<T>]: a field built from its name.  [isMappable] is the
    compile-time trait [Internal::isMappable<RField<T>>] (the class has a
    [Map] method); [P] is what [Map] points to, a place in a page. *)
Class RField `{Storage} (F T P : Type) := {
  RField_base :: RFieldBase F T;
  RField_new : string -> F;
  isMappable : bool;
  Map : F -> AnyIndex -> result P;
  MapV : F -> AnyIndex -> result (P * NTupleSize_t);
  (** the element a mapped pointer points to, while its page is resident *)
  Pointee : F -> P -> option T;
}.

(** [RField<ClusterSize_t>]: the field of a collection, with
    [GetCollectionInfo(index, &collectionStart, &size)]. *)
Class RCollectionField `{Storage} (F P : Type) := {
  RCollectionField_field :: RField F ClusterSize_t P;
  GetCollectionInfo : F -> AnyIndex -> result (RClusterIndex * ClusterSize_t);
}.

(** ** [RNTupleView<T>] *)

Section TypedView.
Context `{RNTupleUtil} `{Storage} {F T P : Type} `{!RField F T P}.

Record RNTupleView := mkRNTupleView {
  fField : F;
  (** the object of [fValue], the [Read()] destination of a field that is
      not mappable; the [RValue] reads through [fField] *)
  fValue : T;
}.

(** The private constructor [RNTupleView(fieldId, pageSource)]. *)
Definition RNTupleView_new (fieldId : DescriptorId_t) (pageSource : RPageSource)
  : M RNTupleView :=
  name <- call (EvGetFieldDescriptor fieldId)
               (GetFieldName (GetSharedDescriptorGuard pageSource) fieldId) ;;
  let fField0 := RField_new name in
  let fValue0 := CreateValue fField0 in
  let fField1 := SetOnDiskId fieldId fField0 in
  fField2 <- call (EvConnect fieldId) (CallConnectPageSourceOnField fField1 pageSource) ;;
  if negb (Z.land (GetTraits fField2) kTraitMappable =? 0) && HasReadCallbacks fField2
  then throw (RException
                (R__FAIL "view disallowed on field with mappable type and read callback"))
  else ret (mkRNTupleView fField2 fValue0).

Definition GetField (v : RNTupleView) : F := fField v.

Definition GetFieldRange (v : RNTupleView) : GlobalRange.RNTupleGlobalRange :=
  GlobalRange.mkRange 0 (GetNElements (fField v)).

(** What a returned [const T &] refers to: the object of the view's [fValue],
    or a place in a page. *)
Inductive Ref :=
| RefValue
| RefMapped (p : P).

(** The content a reference denotes, seen from a state of the view. *)
Definition deref (v : RNTupleView) (r : Ref) : option T :=
  match r with
  | RefValue => Some (fValue v)
  | RefMapped p => Pointee (fField v) p
  end.

(** [operator()(NTupleSize_t)] and [operator()(RClusterIndex)], whose bodies
    are the same: the view after the call and the reference returned. *)
Definition call_op (v : RNTupleView) (idx : AnyIndex) : M (RNTupleView * Ref) :=
  if isMappable
  then p <- call (EvMap idx) (Map (fField v) idx) ;;
       ret (v, RefMapped p)
  else x <- call (EvRead idx) (Read (fField v) idx) ;;
       ret (mkRNTupleView (fField v) x, RefValue).

(** [MapV(index, nItems)], declared only when [isMappable]. *)
Definition RNTupleView_MapV (v : RNTupleView) (idx : AnyIndex)
  : option (M (Ref * NTupleSize_t)) :=
  if isMappable
  then Some ('(p, nItems) <- call (EvMap idx) (MapV (fField v) idx) ;;
             ret (RefMapped p, nItems))
  else None.

End TypedView.

(** ** [RNTupleView<void>] *)

Section VoidView.
Context `{RNTupleUtil} `{Storage} {F V : Type} `{!RFieldBase F V}.

Record RNTupleViewVoid := mkRNTupleViewVoid {
  void_fField : F;
  void_fValue : V;
}.

(** The private constructor of the specialisation; [CreateField] is inlined. *)
Definition RNTupleViewVoid_new (fieldId : DescriptorId_t) (pageSource : RPageSource)
  : M RNTupleViewVoid :=
  fField0 <- call (EvGetFieldDescriptor fieldId)
                  (CreateField (GetSharedDescriptorGuard pageSource) fieldId) ;;
  let fValue0 := CreateValue fField0 in
  let fField1 := SetOnDiskId fieldId fField0 in
  fField2 <- call (EvConnect fieldId) (CallConnectPageSourceOnField fField1 pageSource) ;;
  ret (mkRNTupleViewVoid fField2 fValue0).

Definition void_GetField (v : RNTupleViewVoid) : F := void_fField v.
Definition void_GetValue (v : RNTupleViewVoid) : V := void_fValue v.

Definition void_GetFieldRange (v : RNTupleViewVoid) : GlobalRange.RNTupleGlobalRange :=
  GlobalRange.mkRange 0 (GetNElements (void_fField v)).

(** [operator()]: [fValue.Read(index)], nothing returned. *)
Definition void_call_op (v : RNTupleViewVoid) (idx : AnyIndex) : M RNTupleViewVoid :=
  x <- call (EvRead idx) (Read (void_fField v) idx) ;;
  ret (mkRNTupleViewVoid (void_fField v) x).

End VoidView.

(** ** [RNTupleCollectionView] *)

Section CollectionView.
Context `{RNTupleUtil} `{Storage} {F P : Type} `{!RCollectionField F P}.

(** The class derives from [RNTupleView<ClusterSize_t>]. *)
Record RNTupleCollectionView := mkRNTupleCollectionView {
  base : RNTupleView (F := F) (T := ClusterSize_t);
  fSource : RPageSource;
  fCollectionFieldId : DescriptorId_t;
}.

Definition RNTupleCollectionView_new (fieldId : DescriptorId_t) (source : RPageSource)
  : M RNTupleCollectionView :=
  b <- RNTupleView_new fieldId source ;;
  ret (mkRNTupleCollectionView b source fieldId).

(** [GetCollectionRange], both overloads. *)
Definition GetCollectionRange (v : RNTupleCollectionView) (idx : AnyIndex)
  : M ClusterRange.RNTupleClusterRange :=
  '(collectionStart, size) <-
     call (EvGetCollectionInfo idx) (GetCollectionInfo (fField (base v)) idx) ;;
  ret (ClusterRange.mkRange (GetClusterId collectionStart) (GetIndex collectionStart)
         (wrap cluster_bits (GetIndex collectionStart + size))).

(** [GetView<T>(fieldName)] *)
Definition GetView {F' T' P' : Type} `{!RField F' T' P'}
  (v : RNTupleCollectionView) (fieldName : string)
  : M (RNTupleView (F := F') (T := T')) :=
  fieldId <- call (EvFindFieldId fieldName (fCollectionFieldId v))
                  (Ok (FindFieldId (GetSharedDescriptorGuard (fSource v)) fieldName
                         (fCollectionFieldId v))) ;;
  if fieldId =? kInvalidDescriptorId
  then ntupleName <- call EvGetName (Ok (GetName (GetSharedDescriptorGuard (fSource v)))) ;;
       throw (RException
                (R__FAIL ("no field named '" ++ fieldName ++ "' in RNTuple '"
                          ++ ntupleName ++ "'")))
  else RNTupleView_new fieldId (fSource v).

(** [GetCollectionView(fieldName)] *)
Definition GetCollectionView (v : RNTupleCollectionView) (fieldName : string)
  : M RNTupleCollectionView :=
  fieldId <- call (EvFindFieldId fieldName (fCollectionFieldId v))
                  (Ok (FindFieldId (GetSharedDescriptorGuard (fSource v)) fieldName
                         (fCollectionFieldId v))) ;;
  if fieldId =? kInvalidDescriptorId
  then ntupleName <- call EvGetName (Ok (GetName (GetSharedDescriptorGuard (fSource v)))) ;;
       throw (RException
                (R__FAIL ("no field named '" ++ fieldName ++ "' in RNTuple '"
                          ++ ntupleName ++ "'")))
  else RNTupleCollectionView_new fieldId (fSource v).

(** [operator()], both overloads: the size of the collection. *)
Definition collection_call_op (v : RNTupleCollectionView) (idx : AnyIndex)
  : M ClusterSize_t :=
  '(collectionStart, size) <-
     call (EvGetCollectionInfo idx) (GetCollectionInfo (fField (base v)) idx) ;;
  ret size.

End CollectionView.

(** ** A dataset, its page source and its field objects after the spec *)

Module SpecModel.

(** Modelled from the spec: the capabilities of a field kind (section 6,
    "Field object"): its trait bits, the number of post-decode callbacks
    registered on it, and whether the kind supports zero-copy mapping.  The
    field classes are in the missing [ROOT/RField.hxx]. *)
Record FieldKind := mkFieldKind {
  kind_traits : Z;
  kind_callbacks : nat;
  kind_mappable : bool;
}.

(** Modelled from the spec: what the metadata snapshot and the column storage
    hold of one field (section 6): identifier, scoping parent, name and kind,
    and the elements, cluster by cluster; the identifier of a cluster is its
    position.  The descriptor and page source classes are missing. *)
Record FieldData := mkFieldData {
  fd_id : DescriptorId_t;
  fd_parent : DescriptorId_t;
  fd_name : string;
  fd_kind : FieldKind;
  fd_clusters : list (list Z);
}.

(** Modelled from the spec: the page source with its metadata snapshot: the
    display name of the dataset and its fields. *)
Record Source := mkSource {
  src_name : string;
  src_fields : list FieldData;
}.

(** Modelled from the spec: a field object: its name, the identifier it is
    marked with, its kind, and the column storage it is connected to. *)
Record Field := mkField {
  f_name : string;
  f_onDiskId : DescriptorId_t;
  f_kind : FieldKind;
  f_clusters : list (list Z);
}.

Definition find_field (s : Source) (fieldId : DescriptorId_t) : option FieldData :=
  find (fun d => fd_id d =? fieldId) (src_fields s).

(** Modelled from the spec: lookup of a field's name by identifier.  The spec
    takes the identifier as already resolved; an identifier the dataset does
    not know reads as the empty name. *)
Definition spec_GetFieldName (s : Source) (fieldId : DescriptorId_t) : result string :=
  match find_field s fieldId with
  | Some d => Ok (fd_name d)
  | None => Ok EmptyString
  end.

(** Modelled from the spec: lookup of a field identifier by name and scoping
    parent identifier; the reserved sentinel denotes "not found". *)
Definition spec_FindFieldId `{RNTupleUtil} (s : Source) (fieldName : string)
  (parentId : DescriptorId_t) : DescriptorId_t :=
  match find (fun d => String.eqb (fd_name d) fieldName && (fd_parent d =? parentId))
             (src_fields s) with
  | Some d => fd_id d
  | None => kInvalidDescriptorId
  end.

(** Where the element with linear index [i] lies: its cluster and its offset
    in the cluster, the clusters partitioning the linear indices in order. *)
Fixpoint locate (clusters : list (list Z)) (clusterId i : nat) : option (nat * nat) :=
  match clusters with
  | [] => None
  | c :: rest =>
      if (i <? List.length c)%nat then Some (clusterId, i)
      else locate rest (S clusterId) (i - List.length c)
  end.

(** The cluster and offset an index names, when both are non-negative. *)
Definition position (clusters : list (list Z)) (idx : AnyIndex) : option (nat * nat) :=
  match idx with
  | Global i => if i <? 0 then None else locate clusters 0 (Z.to_nat i)
  | Local ci =>
      if (GetClusterId ci <? 0) || (GetIndex ci <? 0) then None
      else Some (Z.to_nat (GetClusterId ci), Z.to_nat (GetIndex ci))
  end.

(** The element an index names, if it is within the bounds of the field (or
    of the named cluster). *)
Definition element (clusters : list (list Z)) (idx : AnyIndex) : option Z :=
  match position clusters idx with
  | Some (c, k) =>
      match nth_error clusters c with
      | Some cluster => nth_error cluster k
      | None => None
      end
  | None => None
  end.

Definition element_count (clusters : list (list Z)) : NTupleSize_t :=
  Z.of_nat (List.length (List.concat clusters)).

(** Modelled from the spec: binary read of one element by index; an index
    outside the bounds is reported as a failure. *)
Definition spec_Read (f : Field) (idx : AnyIndex) : result Z :=
  match element (f_clusters f) idx with
  | Some x => Ok x
  | None => Throw (FieldException OutOfRange)
  end.

(** Modelled from the spec: mapped pointer access: a pointer to the element
    in its page, here the index itself; out of bounds is a failure. *)
Definition spec_Map (f : Field) (idx : AnyIndex) : result AnyIndex :=
  match element (f_clusters f) idx with
  | Some _ => Ok idx
  | None => Throw (FieldException OutOfRange)
  end.

(** Modelled from the spec: batch-mapped access: the pointer and the number
    of elements from it to the end of its cluster. *)
Definition spec_MapV (f : Field) (idx : AnyIndex) : result (AnyIndex * NTupleSize_t) :=
  match position (f_clusters f) idx with
  | Some (c, k) =>
      match nth_error (f_clusters f) c with
      | Some cluster =>
          if (k <? List.length cluster)%nat
          then Ok (idx, Z.of_nat (List.length cluster - k))
          else Throw (FieldException OutOfRange)
      | None => Throw (FieldException OutOfRange)
      end
  | None => Throw (FieldException OutOfRange)
  end.

(** Modelled from the spec: for a collection kind, index to (child start
    ClusterIndex, child count).  The elements of the field are the sizes of
    its instances; the children of an instance follow, in the cluster of the
    instance, those of the instances before it. *)
Definition spec_GetCollectionInfo (f : Field) (idx : AnyIndex)
  : result (RClusterIndex * ClusterSize_t) :=
  match position (f_clusters f) idx with
  | Some (c, k) =>
      match nth_error (f_clusters f) c with
      | Some cluster =>
          match nth_error cluster k with
          | Some size =>
              Ok (mkRClusterIndex (Z.of_nat c) (fold_right Z.add 0 (firstn k cluster)),
                  size)
          | None => Throw (FieldException OutOfRange)
          end
      | None => Throw (FieldException OutOfRange)
      end
  | None => Throw (FieldException OutOfRange)
  end.

(** Modelled from the spec: connecting binds the field to the column storage
    of the identifier it is marked with. *)
Definition spec_Connect (f : Field) (s : Source) : result Field :=
  Ok (mkField (f_name f) (f_onDiskId f) (f_kind f)
        match find_field s (f_onDiskId f) with
        | Some d => fd_clusters d
        | None => []
        end).

(** Modelled from the spec: the descriptor's factory builds the field object
    from the descriptor's name and kind. *)
Definition spec_CreateField `{RNTupleUtil} (s : Source) (fieldId : DescriptorId_t)
  : result Field :=
  match find_field s fieldId with
  | Some d => Ok (mkField (fd_name d) kInvalidDescriptorId (fd_kind d) [])
  | None => Ok (mkField EmptyString kInvalidDescriptorId (mkFieldKind 0 0 false) [])
  end.

Section Instances.
Context `{RNTupleUtil}.
(** the value of [RFieldBase::kTraitMappable] *)
Variable mappable_bit : Z.
(** the kind of [RField<T>] for the element type at hand *)
Variable kind : FieldKind.

Definition storage : Storage :=
  {| RPageSource := Source;
     RNTupleDescriptor := Source;
     GetSharedDescriptorGuard := fun s => s;
     GetFieldName := spec_GetFieldName;
     FindFieldId := spec_FindFieldId;
     GetName := src_name;
     kTraitMappable := mappable_bit |}.

Definition field_base : @RFieldBase storage Field Z :=
  {| CreateValue := fun _ => 0;
     SetOnDiskId := fun fieldId f => mkField (f_name f) fieldId (f_kind f) (f_clusters f);
     CallConnectPageSourceOnField := fun f (s : @RPageSource storage) => spec_Connect f s;
     GetTraits := fun f => kind_traits (f_kind f);
     HasReadCallbacks := fun f => (0 <? kind_callbacks (f_kind f))%nat;
     GetNElements := fun f => element_count (f_clusters f);
     Read := spec_Read;
     CreateField := fun (s : @RNTupleDescriptor storage) fieldId => spec_CreateField s fieldId |}.

Definition field : @RField storage Field Z AnyIndex :=
  {| RField_base := field_base;
     RField_new := fun name => mkField name kInvalidDescriptorId kind [];
     isMappable := kind_mappable kind;
     Map := spec_Map;
     MapV := spec_MapV;
     Pointee := fun f p => element (f_clusters f) p |}.

Definition collection_field : @RCollectionField storage Field AnyIndex :=
  {| RCollectionField_field := field;
     GetCollectionInfo := spec_GetCollectionInfo |}.

End Instances.

End SpecModel.

(** ** Sequences of indices *)

(** The indices [from], [from+1], ... ([n] of them), each wrapped to the
    width [bits]: what a loop of [n] increments from [from] visits. *)
Fixpoint upto (bits : Z) (from : Z) (n : nat) : list Z :=
  match n with
  | O => []
  | S n' => from :: upto bits (wrap bits (from + 1)) n'
  end.

(** The sequence [from], [from+1], ..., [from+n-1]. *)
Fixpoint indices (from : Z) (n : nat) : list Z :=
  match n with
  | O => []
  | S n' => from :: indices (from + 1) n'
  end.

(** ** Concrete settings *)

(** 64-bit indices and sizes, with the all-ones sentinels. *)
Definition util64 : RNTupleUtil :=
  {| index_bits := 64; cluster_bits := 64;
     kInvalidNTupleIndex := 2 ^ 64 - 1; kInvalidDescriptorId := 2 ^ 64 - 1 |}.

(** A dataset for concrete runs: two numeric fields, a field of another
    kind, and a collection with a child; the first of the numeric fields
    carries a read callback. *)
Definition mappable_with_callback : SpecModel.FieldKind := SpecModel.mkFieldKind 4 1 true.
Definition mappable_plain : SpecModel.FieldKind := SpecModel.mkFieldKind 4 0 true.
Definition not_mappable : SpecModel.FieldKind := SpecModel.mkFieldKind 0 0 false.

Definition events : SpecModel.Source :=
  SpecModel.mkSource "events"
    [ SpecModel.mkFieldData 1 0 "pt" mappable_with_callback [[10; 20]; [30]];
      SpecModel.mkFieldData 2 0 "n" mappable_plain [[7; 8]; [9]];
      SpecModel.mkFieldData 3 0 "tag" not_mappable [[41; 42]; [43]];
      SpecModel.mkFieldData 4 0 "hits" not_mappable [[2; 0; 3]; [1]];
      SpecModel.mkFieldData 5 4 "x" mappable_plain [[1; 2; 3; 4; 5]; [6]] ].

(** The storage interface over [events]-like sources, with
    [kTraitMappable = 0x04]. *)
Definition storage64 : Storage := @SpecModel.storage util64 4.

(** [RField<T>] of kind [k], the untyped field and the collection field over
    that storage. *)
Definition field64 (k : SpecModel.FieldKind) : @RField storage64 SpecModel.Field Z AnyIndex :=
  @SpecModel.field util64 4 k.

Definition field_base64 : @RFieldBase storage64 SpecModel.Field Z :=
  @SpecModel.field_base util64 4.

Definition collection_field64 : @RCollectionField storage64 SpecModel.Field AnyIndex :=
  @SpecModel.collection_field util64 4 not_mappable.

(** A collection view of the field [hits] and a typed view of the field
    [tag], as their constructors return them over [events]. *)
Definition hits_view : @RNTupleCollectionView storage64 SpecModel.Field :=
  @mkRNTupleCollectionView storage64 _
    (mkRNTupleView (SpecModel.mkField "hits" 4 not_mappable [[2; 0; 3]; [1]]) 0)
    events 4.

Definition tag_view : @RNTupleView SpecModel.Field Z :=
  mkRNTupleView (SpecModel.mkField "tag" 3 not_mappable [[41; 42]; [43]]) 0.

(** The values of [tag] by linear index. *)
Definition tag_values (k : Z) : Z := nth (Z.to_nat k) [41; 42; 43] 0.

(** ** Scans *)

(** The view applied to each index of a list in turn, as the body of a loop
    over a range applies it: the view after the last call and the references
    returned, in order. *)
Fixpoint access_all `{Storage} {F T P : Type} `{!RField F T P}
  (v : RNTupleView (F := F) (T := T)) (idxs : list AnyIndex)
  : M (RNTupleView (F := F) (T := T) * list (Ref (P := P))) :=
  match idxs with
  | [] => ret (v, [])
  | idx :: rest =>
      ' (v1, r) <- call_op v idx ;;
      ' (v2, rs) <- access_all v1 rest ;;
      ret (v2, r :: rs)
  end.

(** ** Further concrete settings *)

(** 8-bit indices and sizes, to run a loop through the wrap-around. *)
Definition util8 : RNTupleUtil :=
  {| index_bits := 8; cluster_bits := 8;
     kInvalidNTupleIndex := 255; kInvalidDescriptorId := 255 |}.

(** A page source whose descriptor knows no field when the source is [false],
    and to which no field connects. *)
Definition unknown_field : Exception := RException (R__FAIL "unknown field").
Definition not_connected : Exception := RException (R__FAIL "not connected").

Definition faulty_storage : Storage :=
  {| RPageSource := bool;
     RNTupleDescriptor := bool;
     GetSharedDescriptorGuard := fun s => s;
     GetFieldName := fun s _ => if s then Ok "f"%string else Throw unknown_field;
     FindFieldId := fun _ _ _ => 0;
     GetName := fun _ => "faulty"%string;
     kTraitMappable := 4 |}.

Definition faulty_field_base : @RFieldBase faulty_storage unit Z :=
  {| CreateValue := fun _ => 0;
     SetOnDiskId := fun _ f => f;
     CallConnectPageSourceOnField := fun _ _ => Throw not_connected;
     GetTraits := fun _ => 0;
     HasReadCallbacks := fun _ => false;
     GetNElements := fun _ => 0;
     Read := fun _ _ => Throw (FieldException OutOfRange);
     CreateField := fun _ _ => Ok tt |}.

Definition faulty_field : @RField faulty_storage unit Z unit :=
  {| RField_base := faulty_field_base;
     RField_new := fun _ => tt;
     isMappable := false;
     Map := fun _ _ => Throw (FieldException OutOfRange);
     MapV := fun _ _ => Throw (FieldException OutOfRange);
     Pointee := fun _ _ => None |}.

(** Views over [events]: the mappable field [n], the untyped view of [pt]. *)
Definition n_view : @RNTupleView SpecModel.Field Z :=
  mkRNTupleView (SpecModel.mkField "n" 2 mappable_plain [[7; 8]; [9]]) 0.

Definition pt_void_view : @RNTupleViewVoid SpecModel.Field Z :=
  mkRNTupleViewVoid (SpecModel.mkField "pt" 1 mappable_with_callback [[10; 20]; [30]]) 0.

(** * Properties *)

(** ** Wrap-around arithmetic *)

Lemma in_range_pos bits x : in_range bits x -> 0 < 2 ^ bits.
Proof. unfold in_range; lia. Qed.

Lemma wrap_small bits x : in_range bits x -> wrap bits x = x.
Proof. unfold in_range, wrap; intros; apply Z.mod_small; lia. Qed.

Lemma wrap_in_range bits x : 0 < 2 ^ bits -> in_range bits (wrap bits x).
Proof. unfold in_range, wrap; intros; apply Z.mod_pos_bound; lia. Qed.

(** Two values of the type at distance zero are equal. *)
Lemma dist_zero m i e :
  0 <= i < m -> 0 <= e < m -> (e - i) mod m = 0 -> e = i.
Proof.
  intros Hi He Hd.
  destruct (Z_lt_le_dec e i) as [Hlt | Hge].
  - replace (e - i) with (e - i + 1 * m - m) in Hd by lia.
    replace (e - i + 1 * m - m) with ((e - i + m) + (-1) * m) in Hd by lia.
    rewrite Z.mod_add in Hd by lia.
    rewrite Z.mod_small in Hd by lia. lia.
  - rewrite Z.mod_small in Hd by lia. lia.
Qed.

(** One increment brings the iterator one step closer to the end. *)
Lemma dist_step m i e :
  0 < m -> 0 < (e - i) mod m -> (e - (i + 1) mod m) mod m = (e - i) mod m - 1.
Proof.
  intros Hm Hd.
  rewrite Zminus_mod_idemp_r.
  replace (e - (i + 1)) with ((e - i) - 1) by lia.
  rewrite <- Zminus_mod_idemp_l.
  apply Z.mod_small.
  pose proof (Z.mod_pos_bound (e - i) m Hm). lia.
Qed.

Lemma upto_length bits from n : List.length (upto bits from n) = n.
Proof. revert from; induction n; simpl; intros; auto. Qed.

Lemma indices_length from n : List.length (indices from n) = n.
Proof. revert from; induction n; simpl; intros; auto. Qed.

(** Without overflow the wrapped sequence is the plain one. *)
Lemma upto_indices bits from n :
  0 <= from -> from + Z.of_nat n <= 2 ^ bits -> upto bits from n = indices from n.
Proof.
  revert from; induction n as [| n IH]; intros from H0 Hle; simpl; auto.
  destruct n as [| n'].
  - reflexivity.
  - f_equal. rewrite wrap_small by (unfold in_range; lia).
    apply IH; lia.
Qed.

Lemma indices_nth from n k :
  (k < n)%nat -> nth_error (indices from n) k = Some (from + Z.of_nat k).
Proof.
  revert from k; induction n as [| n IH]; intros from k Hk; [lia |].
  destruct k as [| k]; simpl.
  - f_equal; lia.
  - rewrite IH by lia. f_equal; lia.
Qed.

(** ** The loops over the two ranges *)

Section Ranges.
Context `{RNTupleUtil}.

(** A loop over global indices from [i] to [e] visits the [(e - i) mod 2^w]
    indices from [i] on, whatever the order of [i] and [e]. *)
Lemma global_range_for (n : nat) : forall (i e : Z) (fuel : nat),
  in_range index_bits i -> in_range index_bits e ->
  Z.of_nat n = (e - i) mod 2 ^ index_bits -> (n < fuel)%nat ->
  range_for fuel (GlobalRange.mkRIterator i) (GlobalRange.mkRIterator e)
  = Some (upto index_bits i n).
Proof.
  induction n as [| n IH]; intros i e fuel Hi He Hn Hfuel;
    (destruct fuel as [| fuel]; [lia |]); simpl;
    unfold GlobalRange.neqb, GlobalRange.deref, GlobalRange.preinc; simpl.
  - assert (e = i) as -> by (apply (dist_zero (2 ^ index_bits)); unfold in_range in *; lia).
    rewrite Z.eqb_refl. reflexivity.
  - pose proof (in_range_pos _ _ Hi) as Hm.
    destruct (Z.eqb_spec i e) as [-> | Hne].
    + rewrite Z.sub_diag, Z.mod_0_l in Hn by lia. lia.
    + simpl. rewrite (IH (wrap index_bits (i + 1)) e fuel); auto.
      * apply wrap_in_range; assumption.
      * unfold wrap. rewrite dist_step by lia. lia.
      * lia.
Qed.

(** The same for a cluster range: the cluster identifier is carried along. *)
Lemma cluster_range_for (c : DescriptorId_t) (n : nat) : forall (i e : Z) (fuel : nat),
  in_range cluster_bits i -> in_range cluster_bits e ->
  Z.of_nat n = (e - i) mod 2 ^ cluster_bits -> (n < fuel)%nat ->
  range_for fuel (ClusterRange.mkRIterator (mkRClusterIndex c i))
                 (ClusterRange.mkRIterator (mkRClusterIndex c e))
  = Some (map (mkRClusterIndex c) (upto cluster_bits i n)).
Proof.
  induction n as [| n IH]; intros i e fuel Hi He Hn Hfuel;
    (destruct fuel as [| fuel]; [lia |]); simpl;
    unfold ClusterRange.neqb, ClusterRange.deref, ClusterRange.preinc,
      RClusterIndex_eqb, RClusterIndex_incr; simpl; rewrite Z.eqb_refl; simpl.
  - assert (e = i) as -> by (apply (dist_zero (2 ^ cluster_bits)); unfold in_range in *; lia).
    rewrite Z.eqb_refl. reflexivity.
  - pose proof (in_range_pos _ _ Hi) as Hm.
    destruct (Z.eqb_spec i e) as [-> | Hne].
    + rewrite Z.sub_diag, Z.mod_0_l in Hn by lia. lia.
    + simpl. rewrite (IH (wrap cluster_bits (i + 1)) e fuel); auto.
      * apply wrap_in_range; assumption.
      * unfold wrap. rewrite dist_step by lia. lia.
      * lia.
Qed.

(** Every loop over a global range ends: the end is reached after at most
    [2^w] increments, also when [start] lies after [end]. *)
Lemma global_range_terminates (r : GlobalRange.RNTupleGlobalRange) :
  in_range index_bits (GlobalRange.fStart r) -> in_range index_bits (GlobalRange.fEnd r) ->
  exists fuel l, GlobalRange.iterate fuel r = Some l.
Proof.
  intros Hs He.
  pose proof (in_range_pos _ _ Hs) as Hm.
  pose proof (Z.mod_pos_bound (GlobalRange.fEnd r - GlobalRange.fStart r) _ Hm) as Hd.
  set (n := Z.to_nat ((GlobalRange.fEnd r - GlobalRange.fStart r) mod 2 ^ index_bits)).
  exists (S n), (upto index_bits (GlobalRange.fStart r) n).
  apply global_range_for; auto; unfold n; lia.
Qed.

End Ranges.

(** ** The ranges *)

(** C6: for [start <= end], one pass over [RNTupleGlobalRange(start, end)]
    yields exactly [start, start+1, ..., end-1], which has [end - start]
    elements; any two passes over the same range object yield that same
    sequence; and constructing the range calls nothing (the log is left as
    it was). *)
Theorem global_range_yields_start_to_end `{RNTupleUtil} (start end_ : NTupleSize_t) :
  in_range index_bits start -> in_range index_bits end_ -> start <= end_ ->
  let r := GlobalRange.mkRange start end_ in
  let l := indices start (Z.to_nat (end_ - start)) in
  Z.of_nat (List.length l) = end_ - start /\
  (forall fuel1 fuel2 : nat,
      (Z.to_nat (end_ - start) < fuel1)%nat -> (Z.to_nat (end_ - start) < fuel2)%nat ->
      GlobalRange.iterate fuel1 r = Some l /\ GlobalRange.iterate fuel2 r = Some l) /\
  (forall log, RNTupleGlobalRange_new start end_ log = (log, Ok r)).
Proof.
  intros Hs He Hle r l.
  assert (Hpass : forall fuel, (Z.to_nat (end_ - start) < fuel)%nat ->
                               GlobalRange.iterate fuel r = Some l).
  { intros fuel Hfuel. unfold GlobalRange.iterate, r, l; simpl.
    unfold GlobalRange.begin, GlobalRange.end_; simpl.
    rewrite <- (upto_indices index_bits) by (unfold in_range in *; lia).
    apply global_range_for; auto.
    rewrite Z.mod_small by (unfold in_range in *; lia). lia. }
  repeat split.
  - unfold l. rewrite indices_length. lia.
  - apply Hpass; assumption.
  - apply Hpass; assumption.
Qed.

Lemma global_range_yields_start_to_end_witness :
  @GlobalRange.iterate util64 5 (GlobalRange.mkRange 3 7) = Some [3; 4; 5; 6].
Proof.
  destruct (@global_range_yields_start_to_end util64 3 7) as (_ & Hpass & _).
  - unfold in_range; simpl; lia.
  - unfold in_range; simpl; lia.
  - lia.
  - apply (Hpass 5%nat 5%nat); simpl; lia.
Defined.

(** C7: for [start <= end] and a cluster identifier [c], one pass over
    [RNTupleClusterRange(c, start, end)] yields exactly
    [(c,start), (c,start+1), ..., (c,end-1)]; every index yielded carries the
    cluster identifier [c]. *)
Theorem cluster_range_yields_start_to_end `{RNTupleUtil}
  (c : DescriptorId_t) (start end_ : ClusterSize_t) (fuel : nat) :
  in_range cluster_bits start -> in_range cluster_bits end_ -> start <= end_ ->
  (Z.to_nat (end_ - start) < fuel)%nat ->
  let l := map (mkRClusterIndex c) (indices start (Z.to_nat (end_ - start))) in
  ClusterRange.iterate fuel (ClusterRange.mkRange c start end_) = Some l /\
  Forall (fun ci => GetClusterId ci = c) l.
Proof.
  intros Hs He Hle Hfuel l. split.
  - unfold ClusterRange.iterate, ClusterRange.begin, ClusterRange.end_, l; simpl.
    rewrite <- (upto_indices cluster_bits) by (unfold in_range in *; lia).
    apply cluster_range_for; auto.
    rewrite Z.mod_small by (unfold in_range in *; lia). lia.
  - unfold l. apply Forall_forall. intros ci Hin.
    apply in_map_iff in Hin. destruct Hin as (k & <- & _). reflexivity.
Qed.

Lemma cluster_range_yields_start_to_end_witness :
  @ClusterRange.iterate util64 4 (ClusterRange.mkRange 9 2 5)
  = Some [mkRClusterIndex 9 2; mkRClusterIndex 9 3; mkRClusterIndex 9 4].
Proof.
  apply (@cluster_range_yields_start_to_end util64 9 2 5 4).
  - unfold in_range; simpl; lia.
  - unfold in_range; simpl; lia.
  - lia.
  - simpl; lia.
Defined.

(** C10: for every [s] and every cluster identifier [c], [begin()] equals
    [end()] on [RNTupleGlobalRange(s, s)] and on [RNTupleClusterRange(c, s, s)],
    and a pass over either yields the empty sequence. *)
Theorem degenerate_ranges_are_empty `{RNTupleUtil}
  (c : DescriptorId_t) (s : Z) (fuel : nat) :
  let g := GlobalRange.mkRange s s in
  let k := ClusterRange.mkRange c s s in
  GlobalRange.eqb (GlobalRange.begin g) (GlobalRange.end_ g) = true /\
  GlobalRange.iterate (S fuel) g = Some [] /\
  ClusterRange.eqb (ClusterRange.begin k) (ClusterRange.end_ k) = true /\
  ClusterRange.iterate (S fuel) k = Some [].
Proof.
  simpl. unfold GlobalRange.eqb, GlobalRange.iterate, ClusterRange.eqb,
    ClusterRange.iterate; simpl.
  unfold GlobalRange.neqb, ClusterRange.neqb, RClusterIndex_eqb; simpl.
  rewrite !Z.eqb_refl. simpl. auto.
Qed.

(** ** The typed view *)

(** Unfolds the monad down to the call log. *)
Ltac run_monad := unfold bind, call, ret, throw; simpl.

Section TypedViewProperties.
Context `{Storage} {F T P : Type} `{!RField F T P}.

(** C1, as the code has it: when the field's name is found and the field
    connects, the constructor of [RNTupleView<T>] first connects the field to
    the page source and then checks it: on a field with the mappable trait it
    throws the "view disallowed" exception if the field has read callbacks,
    and returns the view if it has none.  The exception comes after the
    connection, not before it. *)
Theorem typed_view_checks_after_connecting
  (fieldId : DescriptorId_t) (pageSource : RPageSource) (name : string) (f : F)
  (log : list Event) :
  GetFieldName (GetSharedDescriptorGuard pageSource) fieldId = Ok name ->
  CallConnectPageSourceOnField (SetOnDiskId fieldId (RField_new name)) pageSource = Ok f ->
  Z.land (GetTraits f) kTraitMappable <> 0 ->
  RNTupleView_new fieldId pageSource log
  = (log ++ [EvGetFieldDescriptor fieldId; EvConnect fieldId],
     if HasReadCallbacks f
     then Throw IncompatibleView
     else Ok (mkRNTupleView f (CreateValue (RField_new name)))).
Proof.
  intros Hname Hconnect Hmappable.
  unfold RNTupleView_new. run_monad.
  rewrite Hname, Hconnect.
  destruct (Z.eqb_spec (Z.land (GetTraits f) kTraitMappable) 0) as [Heq | _];
    [contradiction |].
  rewrite <- app_assoc. simpl.
  destruct (HasReadCallbacks f); reflexivity.
Qed.

(** A field without the mappable trait is never refused. *)
Lemma typed_view_of_unmappable_field
  (fieldId : DescriptorId_t) (pageSource : RPageSource) (name : string) (f : F)
  (log : list Event) :
  GetFieldName (GetSharedDescriptorGuard pageSource) fieldId = Ok name ->
  CallConnectPageSourceOnField (SetOnDiskId fieldId (RField_new name)) pageSource = Ok f ->
  Z.land (GetTraits f) kTraitMappable = 0 ->
  RNTupleView_new fieldId pageSource log
  = (log ++ [EvGetFieldDescriptor fieldId; EvConnect fieldId],
     Ok (mkRNTupleView f (CreateValue (RField_new name)))).
Proof.
  intros Hname Hconnect Htraits.
  unfold RNTupleView_new. run_monad.
  rewrite Hname, Hconnect, Htraits. simpl.
  rewrite <- app_assoc. reflexivity.
Qed.

(** C8: on a field that is not mappable and holds the values [vals 0], ...,
    [vals (N-1)], [operator()(i)] returns a reference whose content is
    [vals i]; a following [operator()(j)] returns the same reference, into
    the one value object of the view, so that the reference returned first
    now denotes [vals j] (for [j <> i] as for [j = i]). *)
Theorem access_reuses_the_value_object
  (v : RNTupleView) (vals : Z -> T) (N i j : Z) (log : list Event) :
  isMappable = false ->
  (forall k, 0 <= k < N -> Read (fField v) (Global k) = Ok (vals k)) ->
  0 <= i < N -> 0 <= j < N ->
  exists v1 v2 : RNTupleView,
    call_op v (Global i) log = (log ++ [EvRead (Global i)], Ok (v1, RefValue)) /\
    deref v1 RefValue = Some (vals i) /\
    call_op v1 (Global j) (log ++ [EvRead (Global i)])
    = (log ++ [EvRead (Global i); EvRead (Global j)], Ok (v2, RefValue)) /\
    deref v2 RefValue = Some (vals j).
Proof.
  intros Hkind Hvals Hi Hj.
  exists (mkRNTupleView (fField v) (vals i)), (mkRNTupleView (fField v) (vals j)).
  unfold call_op. rewrite Hkind. run_monad.
  rewrite (Hvals i Hi), (Hvals j Hj), <- app_assoc. simpl.
  repeat split; reflexivity.
Qed.

End TypedViewProperties.

Lemma typed_view_checks_after_connecting_witness :
  @RNTupleView_new storage64 _ _ _ (field64 mappable_plain) 2 events []
  = ([EvGetFieldDescriptor 2; EvConnect 2],
     Ok (mkRNTupleView (SpecModel.mkField "n" 2 mappable_plain [[7; 8]; [9]]) 0)).
Proof.
  apply (@typed_view_checks_after_connecting storage64 _ _ _ (field64 mappable_plain)
           2 events "n" (SpecModel.mkField "n" 2 mappable_plain [[7; 8]; [9]]) []).
  - reflexivity.
  - reflexivity.
  - simpl. discriminate.
Defined.

(** Against C1 as stated: on the field [pt] of [events], mappable and with a
    read callback, the constructor throws the "view disallowed" exception,
    and by then the connection to the page source has been made. *)
Lemma typed_view_failure_follows_connection :
  exists log : list Event,
    run (@RNTupleView_new storage64 _ _ _ (field64 mappable_with_callback) 1 events)
    = (log, Throw IncompatibleView) /\
    existsb is_connect log = true.
Proof.
  exists [EvGetFieldDescriptor 1; EvConnect 1]. split; reflexivity.
Qed.

(** ** The untyped view *)

Section VoidViewProperties.
Context `{Storage} {F V : Type} `{!RFieldBase F V}.

(** C2, as the code has it: the constructor of [RNTupleView<void>] makes no
    check of the mappable trait and the read callbacks: whenever the field is
    created from its descriptor and connects, the view is returned, whatever
    the traits and callbacks of the field. *)
Theorem void_view_is_never_refused
  (fieldId : DescriptorId_t) (pageSource : RPageSource) (f0 f : F) (log : list Event) :
  CreateField (GetSharedDescriptorGuard pageSource) fieldId = Ok f0 ->
  CallConnectPageSourceOnField (SetOnDiskId fieldId f0) pageSource = Ok f ->
  RNTupleViewVoid_new fieldId pageSource log
  = (log ++ [EvGetFieldDescriptor fieldId; EvConnect fieldId],
     Ok (mkRNTupleViewVoid f (CreateValue f0))).
Proof.
  intros Hcreate Hconnect.
  unfold RNTupleViewVoid_new. run_monad.
  rewrite Hcreate, Hconnect, <- app_assoc. reflexivity.
Qed.

(** The untyped view only reads: each call overwrites the value object. *)
Lemma void_view_reads (v : RNTupleViewVoid) (idx : AnyIndex) (x : V) (log : list Event) :
  Read (void_fField v) idx = Ok x ->
  void_call_op v idx log = (log ++ [EvRead idx], Ok (mkRNTupleViewVoid (void_fField v) x)).
Proof.
  intros Hread. unfold void_call_op. run_monad. rewrite Hread. reflexivity.
Qed.

End VoidViewProperties.

Lemma void_view_is_never_refused_witness :
  @RNTupleViewVoid_new storage64 _ _ field_base64 1 events []
  = ([EvGetFieldDescriptor 1; EvConnect 1],
     Ok (mkRNTupleViewVoid
           (SpecModel.mkField "pt" 1 mappable_with_callback [[10; 20]; [30]]) 0)).
Proof.
  apply (@void_view_is_never_refused storage64 _ _ field_base64 1 events
           (SpecModel.mkField "pt" (2 ^ 64 - 1) mappable_with_callback []) _ []).
  - reflexivity.
  - reflexivity.
Defined.

(** Against C2 as stated: over the field [pt] of [events], which has the
    mappable trait and a read callback, the untyped view is constructed; no
    exception is thrown. *)
Lemma void_view_over_mappable_field_with_callback :
  exists v : RNTupleViewVoid,
    run (@RNTupleViewVoid_new storage64 _ _ field_base64 1 events)
    = ([EvGetFieldDescriptor 1; EvConnect 1], Ok v) /\
    Z.land (@GetTraits storage64 _ _ field_base64 (void_fField v))
           (@kTraitMappable storage64) <> 0 /\
    @HasReadCallbacks storage64 _ _ field_base64 (void_fField v) = true.
Proof.
  exists (mkRNTupleViewVoid
            (SpecModel.mkField "pt" 1 mappable_with_callback [[10; 20]; [30]]) 0).
  split; [reflexivity |]. split; [simpl; discriminate | reflexivity].
Qed.

(** ** The collection view *)

Lemma append_assoc (a b c : string) : ((a ++ b) ++ c = a ++ b ++ c)%string.
Proof. induction a as [| ch a IH]; simpl; [reflexivity | now rewrite IH]. Qed.

(** The message of [FieldNotFound] names the field and the dataset. *)
Lemma FieldNotFound_message (fieldName ntupleName : string) :
  contains fieldName (what (FieldNotFound fieldName ntupleName)) /\
  contains ntupleName (what (FieldNotFound fieldName ntupleName)).
Proof.
  split.
  - exists "no field named '"%string, ("' in RNTuple '" ++ ntupleName ++ "'")%string.
    reflexivity.
  - exists ("no field named '" ++ fieldName ++ "' in RNTuple '")%string, "'"%string.
    unfold FieldNotFound, R__FAIL, what, fMessage.
    now rewrite !append_assoc.
Qed.

Section CollectionViewProperties.
Context `{RNTupleUtil} `{Storage} {F P : Type} `{!RCollectionField F P}.

(** A pass over the range from [start] to [start + size], the sum taken at
    the width of [ClusterSize_t], visits [size] indices. *)
Lemma collection_range_pass (c : DescriptorId_t) (start size : ClusterSize_t) (fuel : nat) :
  in_range cluster_bits start -> in_range cluster_bits size ->
  (Z.to_nat size < fuel)%nat ->
  ClusterRange.iterate fuel
    (ClusterRange.mkRange c start (wrap cluster_bits (start + size)))
  = Some (map (mkRClusterIndex c) (upto cluster_bits start (Z.to_nat size))).
Proof.
  intros Hstart Hsize Hfuel.
  pose proof (in_range_pos _ _ Hstart) as Hm.
  unfold ClusterRange.iterate, ClusterRange.begin, ClusterRange.end_; simpl.
  apply cluster_range_for; auto.
  - apply wrap_in_range; assumption.
  - unfold wrap. rewrite Zminus_mod_idemp_l.
    replace (start + size - start) with size by lia.
    rewrite Z.mod_small by (unfold in_range in *; lia).
    unfold in_range in *; lia.
Qed.

(** C3: when the name does not resolve under the collection's field
    identifier, [GetView<T>] and [GetCollectionView] throw; the only calls
    made are the lookup and the query of the dataset's name, none of them a
    call of a view constructor, and the message of the exception contains the
    field name and the name of the dataset. *)
Theorem unresolved_name_is_reported
  {F' T' P' : Type} `{!RField F' T' P'}
  (v : RNTupleCollectionView) (fieldName : string) (log : list Event) :
  FindFieldId (GetSharedDescriptorGuard (fSource v)) fieldName (fCollectionFieldId v)
  = kInvalidDescriptorId ->
  let ntupleName := GetName (GetSharedDescriptorGuard (fSource v)) in
  let calls := [EvFindFieldId fieldName (fCollectionFieldId v); EvGetName] in
  GetView (F' := F') (T' := T') v fieldName log
  = (log ++ calls, Throw (FieldNotFound fieldName ntupleName)) /\
  GetCollectionView v fieldName log
  = (log ++ calls, Throw (FieldNotFound fieldName ntupleName)) /\
  existsb is_construction calls = false /\
  contains fieldName (what (FieldNotFound fieldName ntupleName)) /\
  contains ntupleName (what (FieldNotFound fieldName ntupleName)).
Proof.
  intros Hfind ntupleName calls.
  split; [| split; [| split; [reflexivity | apply FieldNotFound_message]]].
  - unfold GetView. run_monad. rewrite Hfind, Z.eqb_refl, <- app_assoc. reflexivity.
  - unfold GetCollectionView. run_monad.
    rewrite Hfind, Z.eqb_refl, <- app_assoc. reflexivity.
Qed.

(** C4: at an index where the field's collection-info operation reports the
    child start [collectionStart] and the count [size],
    [GetCollectionRange] returns the range of [collectionStart]'s cluster
    from [collectionStart]'s index to that index plus [size]; a pass over it
    yields [size] indices, all in that cluster, and, when the sum does not
    overflow, exactly the indices from the child start on. *)
Theorem collection_range_of_collection_info
  (v : RNTupleCollectionView) (idx : AnyIndex)
  (collectionStart : RClusterIndex) (size : ClusterSize_t)
  (log : list Event) (fuel : nat) :
  GetCollectionInfo (fField (base v)) idx = Ok (collectionStart, size) ->
  in_range cluster_bits (GetIndex collectionStart) -> in_range cluster_bits size ->
  (Z.to_nat size < fuel)%nat ->
  exists (r : ClusterRange.RNTupleClusterRange) (l : list RClusterIndex),
    GetCollectionRange v idx log = (log ++ [EvGetCollectionInfo idx], Ok r) /\
    ClusterRange.fClusterId r = GetClusterId collectionStart /\
    ClusterRange.fStart r = GetIndex collectionStart /\
    ClusterRange.fEnd r = wrap cluster_bits (GetIndex collectionStart + size) /\
    ClusterRange.iterate fuel r = Some l /\
    Z.of_nat (List.length l) = size /\
    Forall (fun ci => GetClusterId ci = GetClusterId collectionStart) l /\
    (GetIndex collectionStart + size <= 2 ^ cluster_bits ->
     l = map (mkRClusterIndex (GetClusterId collectionStart))
             (indices (GetIndex collectionStart) (Z.to_nat size))).
Proof.
  intros Hinfo Hstart Hsize Hfuel.
  eexists. eexists.
  split; [unfold GetCollectionRange; run_monad; rewrite Hinfo; reflexivity |].
  simpl. repeat (split; [reflexivity |]).
  split; [apply collection_range_pass; assumption |].
  split; [| split].
  - rewrite length_map, upto_length. unfold in_range in Hsize. lia.
  - apply Forall_forall. intros ci Hin.
    apply in_map_iff in Hin. destruct Hin as (k & <- & _). reflexivity.
  - intros Hsum. f_equal. apply upto_indices; unfold in_range in *; lia.
Qed.

(** C5: at such an index, the size the collection view returns when applied
    to the index is the number of indices a pass over the range of
    [GetCollectionRange] at the same index yields. *)
Theorem collection_size_is_range_length
  (v : RNTupleCollectionView) (idx : AnyIndex)
  (collectionStart : RClusterIndex) (size : ClusterSize_t)
  (log log' : list Event) (fuel : nat) :
  GetCollectionInfo (fField (base v)) idx = Ok (collectionStart, size) ->
  in_range cluster_bits (GetIndex collectionStart) -> in_range cluster_bits size ->
  (Z.to_nat size < fuel)%nat ->
  exists (n : ClusterSize_t) (r : ClusterRange.RNTupleClusterRange)
         (l : list RClusterIndex),
    collection_call_op v idx log = (log ++ [EvGetCollectionInfo idx], Ok n) /\
    GetCollectionRange v idx log' = (log' ++ [EvGetCollectionInfo idx], Ok r) /\
    ClusterRange.iterate fuel r = Some l /\
    n = Z.of_nat (List.length l).
Proof.
  intros Hinfo Hstart Hsize Hfuel.
  exists size. eexists. eexists.
  split; [unfold collection_call_op; run_monad; rewrite Hinfo; reflexivity |].
  split; [unfold GetCollectionRange; run_monad; rewrite Hinfo; reflexivity |].
  split; [apply collection_range_pass; assumption |].
  rewrite length_map, upto_length. unfold in_range in Hsize. lia.
Qed.

End CollectionViewProperties.

Lemma unresolved_name_is_reported_witness :
  @GetView util64 storage64 _ _ _ _ (field64 mappable_plain) hits_view "missing" []
  = ([EvFindFieldId "missing" 4; EvGetName], Throw (FieldNotFound "missing" "events")).
Proof.
  apply (@unresolved_name_is_reported util64 storage64 _ _ collection_field64
           _ _ _ (field64 mappable_plain) hits_view "missing" []).
  reflexivity.
Defined.

Lemma collection_range_of_collection_info_witness :
  exists (r : ClusterRange.RNTupleClusterRange) (l : list RClusterIndex),
    @GetCollectionRange util64 storage64 _ _ collection_field64 hits_view (Global 2) []
    = ([EvGetCollectionInfo (Global 2)], Ok r) /\
    ClusterRange.fClusterId r = 0 /\
    @ClusterRange.iterate util64 4 r = Some l /\
    Z.of_nat (List.length l) = 3.
Proof.
  destruct (@collection_range_of_collection_info util64 storage64 _ _ collection_field64
              hits_view (Global 2) (mkRClusterIndex 0 2) 3 [] 4%nat)
    as (r & l & Hrun & Hcluster & _ & _ & Hpass & Hlength & _).
  - reflexivity.
  - unfold in_range; simpl; lia.
  - unfold in_range; simpl; lia.
  - simpl; lia.
  - exists r, l. repeat split; assumption.
Defined.

Lemma collection_size_is_range_length_witness :
  exists (r : ClusterRange.RNTupleClusterRange) (l : list RClusterIndex),
    @collection_call_op storage64 _ _ collection_field64 hits_view (Global 2) []
    = ([EvGetCollectionInfo (Global 2)], Ok (Z.of_nat (List.length l))) /\
    @GetCollectionRange util64 storage64 _ _ collection_field64 hits_view (Global 2) []
    = ([EvGetCollectionInfo (Global 2)], Ok r) /\
    @ClusterRange.iterate util64 4 r = Some l.
Proof.
  destruct (@collection_size_is_range_length util64 storage64 _ _ collection_field64
              hits_view (Global 2) (mkRClusterIndex 0 2) 3 [] [] 4%nat)
    as (n & r & l & Hsize & Hrun & Hpass & ->).
  - reflexivity.
  - unfold in_range; simpl; lia.
  - unfold in_range; simpl; lia.
  - simpl; lia.
  - exists r, l. repeat split; assumption.
Defined.

Lemma access_reuses_the_value_object_witness :
  exists v1 v2 : RNTupleView,
    @call_op storage64 _ _ _ (field64 not_mappable) tag_view (Global 1) []
    = ([EvRead (Global 1)], Ok (v1, RefValue)) /\
    @deref storage64 _ _ _ (field64 not_mappable) v1 RefValue = Some 42 /\
    @call_op storage64 _ _ _ (field64 not_mappable) v1 (Global 2) [EvRead (Global 1)]
    = ([EvRead (Global 1); EvRead (Global 2)], Ok (v2, RefValue)) /\
    @deref storage64 _ _ _ (field64 not_mappable) v2 RefValue = Some 43.
Proof.
  apply (@access_reuses_the_value_object storage64 _ _ _ (field64 not_mappable)
           tag_view tag_values 3 1 2 []).
  - reflexivity.
  - intros k Hk.
    assert (k = 0 \/ k = 1 \/ k = 2) as [-> | [-> | ->]] by lia; reflexivity.
  - lia.
  - lia.
Defined.

(** ** Access beyond the element count *)

(** No element lies at or after the total number of elements. *)
Lemma locate_beyond (clusters : list (list Z)) : forall (clusterId i : nat),
  (List.length (List.concat clusters) <= i)%nat ->
  SpecModel.locate clusters clusterId i = None.
Proof.
  induction clusters as [| c rest IH]; intros clusterId i Hle; simpl in *.
  - reflexivity.
  - rewrite length_app in Hle.
    destruct (Nat.ltb_spec i (List.length c)) as [Hlt | Hge]; [lia |].
    apply IH. lia.
Qed.

(** A linear index within the count is located in the cluster that holds it,
    at its offset there. *)
Lemma locate_within (clusters : list (list Z)) : forall (clusterId i : nat),
  (i < List.length (List.concat clusters))%nat ->
  exists c k cluster,
    SpecModel.locate clusters clusterId i = Some ((clusterId + c)%nat, k) /\
    nth_error clusters c = Some cluster /\
    nth_error cluster k = nth_error (List.concat clusters) i.
Proof.
  induction clusters as [| c0 rest IH]; intros clusterId i Hlt; simpl in *.
  - lia.
  - rewrite length_app in Hlt.
    destruct (Nat.ltb_spec i (List.length c0)) as [Hin | Hout].
    + exists 0%nat, i, c0. rewrite Nat.add_0_r, nth_error_app1 by assumption. auto.
    + destruct (IH (S clusterId) (i - List.length c0)%nat) as (c & k & cluster & Hloc & Hc & Hk);
        [lia |].
      exists (S c), k, cluster. rewrite Hloc, nth_error_app2 by assumption.
      repeat split; auto. f_equal. f_equal. lia.
Qed.

(** The modelled field reads by linear index the elements of its clusters in
    order. *)
Lemma element_global (clusters : list (list Z)) (i : Z) :
  0 <= i ->
  SpecModel.element clusters (Global i) = nth_error (List.concat clusters) (Z.to_nat i).
Proof.
  intros Hi. unfold SpecModel.element, SpecModel.position.
  destruct (Z.ltb_spec i 0) as [Hneg | _]; [lia |].
  destruct (Nat.lt_ge_cases (Z.to_nat i) (List.length (List.concat clusters))) as [Hlt | Hge].
  - destruct (locate_within clusters 0 _ Hlt) as (c & k & cluster & Hloc & Hc & Hk).
    rewrite Hloc. simpl. rewrite Hc. exact Hk.
  - rewrite (locate_beyond clusters 0 _ Hge). symmetry.
    apply nth_error_None. assumption.
Qed.

Lemma element_beyond (clusters : list (list Z)) (i : Z) :
  SpecModel.element_count clusters <= i -> SpecModel.element clusters (Global i) = None.
Proof.
  unfold SpecModel.element_count. intros Hle.
  rewrite element_global by lia.
  apply nth_error_None. lia.
Qed.

(** C9: over the field object as the spec describes it, [operator()(i)] of a
    typed view with [i] at or beyond the field's element count throws the
    out-of-range failure of the field, on the mapped path as on the read
    path. *)
Theorem access_beyond_count_is_out_of_range `{RNTupleUtil}
  (mappable_bit : Z) (kind : SpecModel.FieldKind)
  (v : @RNTupleView SpecModel.Field Z) (i : NTupleSize_t) (log : list Event) :
  @GetNElements (SpecModel.storage mappable_bit) _ _ (SpecModel.field_base mappable_bit)
    (fField v) <= i ->
  @call_op (SpecModel.storage mappable_bit) _ _ _ (SpecModel.field mappable_bit kind)
    v (Global i) log
  = (log ++ [if SpecModel.kind_mappable kind then EvMap (Global i) else EvRead (Global i)],
     Throw (FieldException OutOfRange)).
Proof.
  simpl. intros Hcount.
  unfold call_op. simpl.
  destruct (SpecModel.kind_mappable kind); run_monad;
    unfold SpecModel.spec_Map, SpecModel.spec_Read;
    rewrite (element_beyond _ _ Hcount); reflexivity.
Qed.

Lemma access_beyond_count_is_out_of_range_witness :
  @call_op storage64 _ _ _ (field64 not_mappable) tag_view (Global 3) []
  = ([EvRead (Global 3)], Throw (FieldException OutOfRange)).
Proof.
  apply (@access_beyond_count_is_out_of_range util64 4 not_mappable tag_view 3 []).
  vm_compute. discriminate.
Defined.

(** ** Runs on the dataset [events] *)

(** The collection [hits] has the sizes 2, 0, 3 in cluster 0 and 1 in
    cluster 1: the children of instance 2 are the three indices from offset 2
    of cluster 0. *)
Example hits_children_of_instance_2 :
  run (r <- @GetCollectionRange util64 storage64 _ _ collection_field64
              hits_view (Global 2) ;;
       ret (@ClusterRange.iterate util64 4 r))
  = ([EvGetCollectionInfo (Global 2)],
     Ok (Some [mkRClusterIndex 0 2; mkRClusterIndex 0 3; mkRClusterIndex 0 4])).
Proof. reflexivity. Qed.

(** The same instance found from its position in its cluster. *)
Example hits_children_by_cluster_index :
  run (@GetCollectionRange util64 storage64 _ _ collection_field64
         hits_view (Local (mkRClusterIndex 0 2)))
  = ([EvGetCollectionInfo (Local (mkRClusterIndex 0 2))],
     Ok (ClusterRange.mkRange 0 2 5)).
Proof. reflexivity. Qed.

(** The child [x] of [hits] resolves, and its view is constructed after the
    lookup. *)
Example hits_child_view :
  fst (run (@GetView util64 storage64 _ _ _ _ (field64 mappable_plain) hits_view "x"))
  = [EvFindFieldId "x" 4; EvGetFieldDescriptor 5; EvConnect 5].
Proof. reflexivity. Qed.

(** On a mappable field the view returns a pointer into the page and leaves
    its value object alone. *)
Example mapped_access :
  run (v <- @RNTupleView_new storage64 _ _ _ (field64 mappable_plain) 2 events ;;
       ' (v1, r) <- @call_op storage64 _ _ _ (field64 mappable_plain) v (Global 2) ;;
       ret (r, fValue v1, @deref storage64 _ _ _ (field64 mappable_plain) v1 r))
  = ([EvGetFieldDescriptor 2; EvConnect 2; EvMap (Global 2)],
     Ok (RefMapped (Global 2), 0, Some 9)).
Proof. reflexivity. Qed.

(** * Further properties *)

(** ** Ranges in any order of their bounds *)

(** X1: a pass over [RNTupleGlobalRange(start, end)] always ends, whatever
    the order of the bounds: it yields the [(end - start) mod 2^w] indices
    from [start] on, each one more than the one before, modulo [2^w].  With
    [end < start] the range is not empty: the loop runs through the
    wrap-around and yields [2^w - (start - end)] indices. *)
Theorem global_range_in_any_order `{RNTupleUtil} (start end_ : NTupleSize_t) (fuel : nat) :
  in_range index_bits start -> in_range index_bits end_ ->
  (Z.to_nat ((end_ - start) mod 2 ^ index_bits) < fuel)%nat ->
  exists l : list NTupleSize_t,
    GlobalRange.iterate fuel (GlobalRange.mkRange start end_) = Some l /\
    l = upto index_bits start (List.length l) /\
    Z.of_nat (List.length l) = (end_ - start) mod 2 ^ index_bits /\
    (end_ < start -> Z.of_nat (List.length l) = 2 ^ index_bits - (start - end_)).
Proof.
  intros Hs He Hfuel.
  pose proof (in_range_pos _ _ Hs) as Hm.
  pose proof (Z.mod_pos_bound (end_ - start) _ Hm) as Hd.
  set (n := Z.to_nat ((end_ - start) mod 2 ^ index_bits)) in *.
  exists (upto index_bits start n).
  rewrite upto_length.
  assert (Hn : Z.of_nat n = (end_ - start) mod 2 ^ index_bits) by (unfold n; lia).
  repeat split; auto.
  - unfold GlobalRange.iterate, GlobalRange.begin, GlobalRange.end_; simpl.
    apply global_range_for; auto.
  - intros Hlt. rewrite Hn.
    replace (end_ - start) with ((end_ - start + 2 ^ index_bits) + (-1) * 2 ^ index_bits)
      by lia.
    rewrite Z.mod_add by lia.
    rewrite Z.mod_small by (unfold in_range in *; lia). lia.
Qed.

Lemma global_range_in_any_order_witness :
  exists l : list NTupleSize_t,
    @GlobalRange.iterate util8 5 (GlobalRange.mkRange 254 2) = Some l /\
    l = [254; 255; 0; 1].
Proof.
  destruct (@global_range_in_any_order util8 254 2 5) as (l & Hpass & Hl & Hn & _).
  - unfold in_range; simpl; lia.
  - unfold in_range; simpl; lia.
  - vm_compute. lia.
  - exists l. split; [exact Hpass |].
    assert (Hmod : (2 - 254) mod 2 ^ @index_bits util8 = 4) by reflexivity.
    assert (Hlen : List.length l = 4%nat) by (rewrite Hmod in Hn; lia).
    rewrite Hl, Hlen. reflexivity.
Defined.

(** X2: the same for [RNTupleClusterRange(c, start, end)]: the pass ends in
    any order of the bounds, yields [(end - start) mod 2^w] indices, and all
    of them carry the cluster identifier [c], also through the wrap-around. *)
Theorem cluster_range_in_any_order `{RNTupleUtil}
  (c : DescriptorId_t) (start end_ : ClusterSize_t) (fuel : nat) :
  in_range cluster_bits start -> in_range cluster_bits end_ ->
  (Z.to_nat ((end_ - start) mod 2 ^ cluster_bits) < fuel)%nat ->
  exists l : list RClusterIndex,
    ClusterRange.iterate fuel (ClusterRange.mkRange c start end_) = Some l /\
    map GetIndex l = upto cluster_bits start (List.length l) /\
    Z.of_nat (List.length l) = (end_ - start) mod 2 ^ cluster_bits /\
    Forall (fun ci => GetClusterId ci = c) l.
Proof.
  intros Hs He Hfuel.
  pose proof (in_range_pos _ _ Hs) as Hm.
  pose proof (Z.mod_pos_bound (end_ - start) _ Hm) as Hd.
  set (n := Z.to_nat ((end_ - start) mod 2 ^ cluster_bits)) in *.
  exists (map (mkRClusterIndex c) (upto cluster_bits start n)).
  rewrite length_map, upto_length.
  repeat split.
  - unfold ClusterRange.iterate, ClusterRange.begin, ClusterRange.end_; simpl.
    apply cluster_range_for; auto. unfold n; lia.
  - rewrite map_map. simpl. apply map_id.
  - unfold n; lia.
  - apply Forall_forall. intros ci Hin.
    apply in_map_iff in Hin. destruct Hin as (k & <- & _). reflexivity.
Qed.

Lemma cluster_range_in_any_order_witness :
  exists l : list RClusterIndex,
    @ClusterRange.iterate util8 4 (ClusterRange.mkRange 7 255 2) = Some l /\
    Forall (fun ci => GetClusterId ci = 7) l.
Proof.
  destruct (@cluster_range_in_any_order util8 7 255 2 4) as (l & Hpass & _ & _ & Hc).
  - unfold in_range; simpl; lia.
  - unfold in_range; simpl; lia.
  - vm_compute. lia.
  - exists l. split; assumption.
Defined.

(** A pass over a global range with [start <= end]. *)
Lemma global_range_pass `{RNTupleUtil} (start end_ : NTupleSize_t) (fuel : nat) :
  in_range index_bits start -> in_range index_bits end_ -> start <= end_ ->
  (Z.to_nat (end_ - start) < fuel)%nat ->
  GlobalRange.iterate fuel (GlobalRange.mkRange start end_)
  = Some (indices start (Z.to_nat (end_ - start))).
Proof.
  intros Hs He Hle Hfuel.
  unfold GlobalRange.iterate, GlobalRange.begin, GlobalRange.end_; simpl.
  rewrite <- (upto_indices index_bits) by (unfold in_range in *; lia).
  apply global_range_for; auto.
  rewrite Z.mod_small by (unfold in_range in *; lia). lia.
Qed.

(** ** More on the typed view *)

Section TypedViewFurther.
Context `{RNTupleUtil} `{Storage} {F T P : Type} `{!RField F T P}.

(** X3: a pass over [GetFieldRange()] of a typed view yields the indices
    [0, 1, ..., N-1], where [N] is the number of elements the field reports:
    each element of the field once, in order, and none for an empty field. *)
Theorem field_range_covers_all_elements (v : RNTupleView) (fuel : nat) :
  in_range index_bits (GetNElements (fField v)) ->
  (Z.to_nat (GetNElements (fField v)) < fuel)%nat ->
  GlobalRange.iterate fuel (GetFieldRange v)
  = Some (indices 0 (Z.to_nat (GetNElements (fField v)))) /\
  (GetNElements (fField v) = 0 -> GlobalRange.iterate fuel (GetFieldRange v) = Some []).
Proof.
  intros HN Hfuel.
  assert (Hpass : GlobalRange.iterate fuel (GetFieldRange v)
                  = Some (indices 0 (Z.to_nat (GetNElements (fField v))))).
  { unfold GetFieldRange.
    replace (Z.to_nat (GetNElements (fField v)))
      with (Z.to_nat (GetNElements (fField v) - 0)) in * by (f_equal; lia).
    apply global_range_pass; auto; unfold in_range in *; lia. }
  split; [exact Hpass |].
  intros Hzero. rewrite Hpass, Hzero. reflexivity.
Qed.

(** X4: read callbacks alone do not make the constructor refuse a field: when
    the connected field lacks the mappable trait the view is returned,
    whether or not the field has read callbacks. *)
Theorem typed_view_accepts_field_without_mappable_trait
  (fieldId : DescriptorId_t) (pageSource : RPageSource) (name : string) (f : F)
  (log : list Event) :
  GetFieldName (GetSharedDescriptorGuard pageSource) fieldId = Ok name ->
  CallConnectPageSourceOnField (SetOnDiskId fieldId (RField_new name)) pageSource = Ok f ->
  Z.land (GetTraits f) kTraitMappable = 0 ->
  exists v : RNTupleView,
    RNTupleView_new fieldId pageSource log
    = (log ++ [EvGetFieldDescriptor fieldId; EvConnect fieldId], Ok v) /\
    fField v = f.
Proof.
  intros Hname Hconnect Htraits.
  exists (mkRNTupleView f (CreateValue (RField_new name))).
  split; [| reflexivity].
  apply typed_view_of_unmappable_field; assumption.
Qed.


End TypedViewFurther.

Lemma field_range_covers_all_elements_witness :
  @GlobalRange.iterate util64 4 (@GetFieldRange storage64 _ _ _ (field64 not_mappable) tag_view)
  = Some [0; 1; 2].
Proof.
  apply (@field_range_covers_all_elements util64 storage64 _ _ _ (field64 not_mappable)
           tag_view 4).
  - change (in_range 64 3). unfold in_range; simpl; lia.
  - vm_compute. lia.
Defined.

Lemma typed_view_accepts_field_without_mappable_trait_witness :
  exists v : RNTupleView,
    @RNTupleView_new storage64 _ _ _ (field64 (SpecModel.mkFieldKind 0 1 false)) 3 events []
    = ([EvGetFieldDescriptor 3; EvConnect 3], Ok v) /\
    @HasReadCallbacks storage64 _ _ field_base64 (fField v) = true.
Proof.
  destruct (@typed_view_accepts_field_without_mappable_trait storage64 _ _ _
              (field64 (SpecModel.mkFieldKind 0 1 false)) 3 events "tag"%string
              (SpecModel.mkField "tag" 3 (SpecModel.mkFieldKind 0 1 false) [[41; 42]; [43]])
              [])
    as (v & Hrun & Hfield).
  - reflexivity.
  - reflexivity.
  - reflexivity.
  - exists v. split; [exact Hrun |]. rewrite Hfield. reflexivity.
Defined.

(** The last element of a list that has one does not depend on the default. *)
Lemma last_default {A : Type} (l : list A) (a d d' : A) :
  last (a :: l) d = last (a :: l) d'.
Proof.
  revert a; induction l as [| b l IH]; intros a; [reflexivity |].
  change (last (b :: l) d = last (b :: l) d'). apply IH.
Qed.

Section TypedViewAccess.
Context `{Storage} {F T P : Type} `{!RField F T P}.

(** X6: when the lookup of the field's name throws, the constructor of the
    typed view throws the same exception and has called nothing else: no
    connection to the page source is attempted. *)
Theorem failed_lookup_connects_nothing
  (fieldId : DescriptorId_t) (pageSource : RPageSource) (e : Exception)
  (log : list Event) :
  GetFieldName (GetSharedDescriptorGuard pageSource) fieldId = Throw e ->
  exists calls : list Event,
    RNTupleView_new fieldId pageSource log = (log ++ calls, Throw e) /\
    calls = [EvGetFieldDescriptor fieldId] /\
    existsb is_connect calls = false.
Proof.
  intros Hname. exists [EvGetFieldDescriptor fieldId].
  split; [| split; reflexivity].
  unfold RNTupleView_new. run_monad. rewrite Hname. reflexivity.
Qed.

(** X7: [operator()] of the typed view has no failure of its own: it makes
    exactly one call on the field, [Map] if the field kind is mappable and a
    read otherwise, and it throws an exception exactly when that call throws
    it. *)
Theorem access_fails_only_as_the_field_does
  (v : RNTupleView) (idx : AnyIndex) (log : list Event) (e : Exception) :
  fst (call_op v idx log) = log ++ [if isMappable then EvMap idx else EvRead idx] /\
  (snd (call_op v idx log) = Throw e <->
   if isMappable then Map (fField v) idx = Throw e else Read (fField v) idx = Throw e).
Proof.
  unfold call_op.
  destruct isMappable; run_monad.
  - destruct (Map (fField v) idx) as [p | e0]; simpl;
      (split; [reflexivity | split; intros Heq; congruence]).
  - destruct (Read (fField v) idx) as [x | e0]; simpl;
      (split; [reflexivity | split; intros Heq; congruence]).
Qed.

(** X8: on a mappable field kind a scan never touches the view: after any
    number of accesses that the field maps, the view, its value object
    included, is as it was, one [Map] call was made per index, in order, and
    no read. *)
Theorem mapped_scan_leaves_the_view (v : RNTupleView) (idxs : list AnyIndex)
  (ps : list P) (log : list Event) :
  isMappable = true ->
  Forall2 (fun idx p => Map (fField v) idx = Ok p) idxs ps ->
  access_all v idxs log = (log ++ map EvMap idxs, Ok (v, map RefMapped ps)).
Proof.
  intros Hkind Hmap. revert log.
  induction Hmap as [| idx p idxs ps Hidx _ IH]; intros log; simpl.
  - unfold ret. rewrite app_nil_r. reflexivity.
  - unfold bind at 1. unfold call_op. rewrite Hkind.
    unfold bind at 1. unfold call at 1. rewrite Hidx. unfold ret at 1.
    unfold bind. rewrite IH. unfold ret.
    rewrite <- app_assoc. reflexivity.
Qed.

(** X9: on a field kind that is not mappable every access of a scan returns
    a reference to the one value object, and after the scan that object
    holds the value read last; one read was made per index, in order. *)
Theorem read_scan_keeps_the_last_value (v : RNTupleView) (idxs : list AnyIndex)
  (xs : list T) (log : list Event) :
  isMappable = false ->
  Forall2 (fun idx x => Read (fField v) idx = Ok x) idxs xs ->
  access_all v idxs log
  = (log ++ map EvRead idxs,
     Ok (mkRNTupleView (fField v) (last xs (fValue v)), map (fun _ => RefValue) idxs)).
Proof.
  intros Hkind Hread. revert v xs log Hread.
  induction idxs as [| idx idxs IH]; intros v xs log Hread;
    inversion Hread as [| idx' x idxs' xs' Hidx Hrest]; subst; simpl.
  - unfold ret. rewrite app_nil_r. destruct v; reflexivity.
  - unfold bind at 1. unfold call_op. rewrite Hkind.
    unfold bind at 1. unfold call at 1. rewrite Hidx. unfold ret at 1.
    unfold bind.
    rewrite (IH (mkRNTupleView (fField v) x) xs' (log ++ [EvRead idx]) Hrest).
    unfold ret. rewrite <- app_assoc. simpl fField. simpl fValue.
    destruct xs' as [| x' xs'']; [reflexivity |].
    rewrite (last_default xs'' x' x (fValue v)). reflexivity.
Qed.

End TypedViewAccess.

Lemma failed_lookup_connects_nothing_witness :
  @RNTupleView_new faulty_storage _ _ _ faulty_field 1 false []
  = ([EvGetFieldDescriptor 1], Throw unknown_field).
Proof.
  destruct (@failed_lookup_connects_nothing faulty_storage _ _ _ faulty_field
              1 false unknown_field [])
    as (calls & Hrun & -> & _).
  - reflexivity.
  - exact Hrun.
Defined.

Lemma mapped_scan_leaves_the_view_witness :
  @access_all storage64 _ _ _ (field64 mappable_plain) n_view [Global 2; Global 0] []
  = ([EvMap (Global 2); EvMap (Global 0)],
     Ok (n_view, [RefMapped (Global 2); RefMapped (Global 0)])).
Proof.
  apply (@mapped_scan_leaves_the_view storage64 _ _ _ (field64 mappable_plain)
           n_view [Global 2; Global 0] [Global 2; Global 0] []).
  - reflexivity.
  - repeat constructor.
Defined.

Lemma read_scan_keeps_the_last_value_witness :
  @access_all storage64 _ _ _ (field64 not_mappable) tag_view [Global 0; Global 2; Global 1] []
  = ([EvRead (Global 0); EvRead (Global 2); EvRead (Global 1)],
     Ok (mkRNTupleView (fField tag_view) 42, [RefValue; RefValue; RefValue])).
Proof.
  apply (@read_scan_keeps_the_last_value storage64 _ _ _ (field64 not_mappable)
           tag_view [Global 0; Global 2; Global 1] [41; 43; 42] []).
  - reflexivity.
  - repeat constructor.
Defined.

(** ** More on the untyped view *)

Section VoidViewFurther.
Context `{RNTupleUtil} `{Storage} {F V : Type} `{!RFieldBase F V}.

(** X10: the constructor of [RNTupleView<void>] throws nothing of its own:
    it throws an exception exactly when creating the field from its
    descriptor throws it, or when the field is created and connecting it
    throws it. *)
Theorem void_view_fails_only_as_its_collaborators
  (fieldId : DescriptorId_t) (pageSource : RPageSource) (log : list Event)
  (e : Exception) :
  snd (RNTupleViewVoid_new fieldId pageSource log) = Throw e <->
  CreateField (GetSharedDescriptorGuard pageSource) fieldId = Throw e \/
  (exists f0 : F,
      CreateField (GetSharedDescriptorGuard pageSource) fieldId = Ok f0 /\
      CallConnectPageSourceOnField (SetOnDiskId fieldId f0) pageSource = Throw e).
Proof.
  unfold RNTupleViewVoid_new. run_monad.
  destruct (CreateField (GetSharedDescriptorGuard pageSource) fieldId)
    as [f0 | e0] eqn:Hcreate; simpl.
  - destruct (CallConnectPageSourceOnField (SetOnDiskId fieldId f0) pageSource)
      as [f | e1] eqn:Hconnect; simpl; split.
    + intros Hthrow. discriminate Hthrow.
    + intros [Hbad | (f0' & Hc & Hbad)]; [discriminate Hbad |].
      injection Hc as <-. rewrite Hconnect in Hbad. discriminate Hbad.
    + intros Hthrow. right. exists f0. split; [reflexivity |]. congruence.
    + intros [Hbad | (f0' & Hc & Hbad)]; [discriminate Hbad |].
      injection Hc as <-. rewrite Hconnect in Hbad. congruence.
  - split.
    + intros Hthrow. left. congruence.
    + intros [Hbad | (f0' & Hc & _)]; [congruence | discriminate Hc].
Qed.

(** X11: the untyped view reads into its one value object: after two
    successful calls of [operator()], [GetValue()] gives what the second call
    read, [GetField()] is the field the view was built with, and each call
    made one read. *)
Theorem void_view_value_is_the_last_read
  (v : RNTupleViewVoid) (idx1 idx2 : AnyIndex) (x1 x2 : V) (log : list Event) :
  Read (void_fField v) idx1 = Ok x1 ->
  Read (void_fField v) idx2 = Ok x2 ->
  exists v2 : RNTupleViewVoid,
    (v1 <- void_call_op v idx1 ;; void_call_op v1 idx2) log
    = (log ++ [EvRead idx1; EvRead idx2], Ok v2) /\
    void_GetValue v2 = x2 /\
    void_GetField v2 = void_GetField v.
Proof.
  intros Hread1 Hread2.
  exists (mkRNTupleViewVoid (void_fField v) x2).
  split; [| split; reflexivity].
  unfold void_call_op. run_monad.
  rewrite Hread1. simpl. rewrite Hread2, <- app_assoc. reflexivity.
Qed.

(** X12: a pass over [GetFieldRange()] of the untyped view yields the
    indices [0, 1, ..., N-1] for the [N] elements the field reports. *)
Theorem void_field_range_covers_all_elements (v : RNTupleViewVoid) (fuel : nat) :
  in_range index_bits (GetNElements (void_fField v)) ->
  (Z.to_nat (GetNElements (void_fField v)) < fuel)%nat ->
  GlobalRange.iterate fuel (void_GetFieldRange v)
  = Some (indices 0 (Z.to_nat (GetNElements (void_fField v)))).
Proof.
  intros HN Hfuel. unfold void_GetFieldRange.
  replace (Z.to_nat (GetNElements (void_fField v)))
    with (Z.to_nat (GetNElements (void_fField v) - 0)) in * by (f_equal; lia).
  apply global_range_pass; auto; unfold in_range in *; lia.
Qed.

End VoidViewFurther.

Lemma void_view_value_is_the_last_read_witness :
  exists v2 : RNTupleViewVoid,
    (v1 <- @void_call_op storage64 _ _ field_base64 pt_void_view (Global 0) ;;
     @void_call_op storage64 _ _ field_base64 v1 (Local (mkRClusterIndex 1 0))) []
    = ([EvRead (Global 0); EvRead (Local (mkRClusterIndex 1 0))], Ok v2) /\
    void_GetValue v2 = 30.
Proof.
  destruct (@void_view_value_is_the_last_read storage64 _ _ field_base64 pt_void_view
              (Global 0) (Local (mkRClusterIndex 1 0)) 10 30 [])
    as (v2 & Hrun & Hvalue & _).
  - reflexivity.
  - reflexivity.
  - exists v2. split; assumption.
Defined.

Lemma void_field_range_covers_all_elements_witness :
  @GlobalRange.iterate util64 4 (@void_GetFieldRange storage64 _ _ field_base64 pt_void_view)
  = Some [0; 1; 2].
Proof.
  apply (@void_field_range_covers_all_elements util64 storage64 _ _ field_base64
           pt_void_view 4).
  - change (in_range 64 3). unfold in_range; simpl; lia.
  - vm_compute. lia.
Defined.

(** ** More on the collection view *)

Section CollectionViewFurther.
Context `{RNTupleUtil} `{Storage} {F P : Type} `{!RCollectionField F P}.

(** X13: when the name resolves, [GetView<T>] and [GetCollectionView] are the
    constructors run at the identifier found, on the page source of the
    collection view, after the one lookup: the name of the dataset is not
    queried, and whatever the constructor throws is thrown. *)
Theorem resolved_name_runs_the_constructor
  {F' T' P' : Type} `{!RField F' T' P'}
  (v : RNTupleCollectionView) (fieldName : string) (log : list Event) :
  FindFieldId (GetSharedDescriptorGuard (fSource v)) fieldName (fCollectionFieldId v)
  <> kInvalidDescriptorId ->
  let fieldId :=
    FindFieldId (GetSharedDescriptorGuard (fSource v)) fieldName (fCollectionFieldId v) in
  let log' := log ++ [EvFindFieldId fieldName (fCollectionFieldId v)] in
  GetView (F' := F') (T' := T') v fieldName log
  = RNTupleView_new fieldId (fSource v) log' /\
  GetCollectionView v fieldName log
  = RNTupleCollectionView_new fieldId (fSource v) log'.
Proof.
  intros Hfound fieldId log'.
  apply Z.eqb_neq in Hfound.
  split.
  - unfold GetView. unfold bind at 1. unfold call at 1. cbv beta iota.
    rewrite Hfound. reflexivity.
  - unfold GetCollectionView. unfold bind at 1. unfold call at 1. cbv beta iota.
    rewrite Hfound. reflexivity.
Qed.

(** X14: a collection view obtained by name is scoped under the field found:
    it keeps the page source of its parent view, its collection field
    identifier is the identifier the name resolved to, and its field is the
    connected field of that identifier. *)
Theorem child_collection_is_scoped_under_its_field
  (v : RNTupleCollectionView) (fieldName name : string) (fieldId : DescriptorId_t)
  (f : F) (log : list Event) :
  FindFieldId (GetSharedDescriptorGuard (fSource v)) fieldName (fCollectionFieldId v)
  = fieldId ->
  fieldId <> kInvalidDescriptorId ->
  GetFieldName (GetSharedDescriptorGuard (fSource v)) fieldId = Ok name ->
  CallConnectPageSourceOnField (SetOnDiskId fieldId (RField_new name)) (fSource v) = Ok f ->
  negb (Z.land (GetTraits f) kTraitMappable =? 0) && HasReadCallbacks f = false ->
  exists child : RNTupleCollectionView,
    GetCollectionView v fieldName log
    = (log ++ [EvFindFieldId fieldName (fCollectionFieldId v);
               EvGetFieldDescriptor fieldId; EvConnect fieldId],
       Ok child) /\
    fSource child = fSource v /\
    fCollectionFieldId child = fieldId /\
    fField (base child) = f.
Proof.
  intros Hfind Hfound Hname Hconnect Hcheck.
  apply Z.eqb_neq in Hfound.
  exists (mkRNTupleCollectionView
            (mkRNTupleView f (CreateValue (RField_new name))) (fSource v) fieldId).
  split; [| repeat split].
  unfold GetCollectionView, RNTupleCollectionView_new, RNTupleView_new. run_monad.
  rewrite Hfind, Hfound, Hname, Hconnect, Hcheck.
  rewrite <- !app_assoc. reflexivity.
Qed.

(** X15: the range of an instance is empty exactly when the instance has no
    children: [begin()] equals [end()] on the range [GetCollectionRange]
    returns if and only if the size reported is zero. *)
Theorem collection_range_is_empty_iff_no_children
  (v : RNTupleCollectionView) (idx : AnyIndex)
  (collectionStart : RClusterIndex) (size : ClusterSize_t) (log : list Event) :
  GetCollectionInfo (fField (base v)) idx = Ok (collectionStart, size) ->
  in_range cluster_bits (GetIndex collectionStart) -> in_range cluster_bits size ->
  exists r : ClusterRange.RNTupleClusterRange,
    GetCollectionRange v idx log = (log ++ [EvGetCollectionInfo idx], Ok r) /\
    ClusterRange.eqb (ClusterRange.begin r) (ClusterRange.end_ r) = (size =? 0).
Proof.
  intros Hinfo Hstart Hsize.
  eexists. split; [unfold GetCollectionRange; run_monad; rewrite Hinfo; reflexivity |].
  unfold ClusterRange.eqb, ClusterRange.begin, ClusterRange.end_, RClusterIndex_eqb; simpl.
  rewrite Z.eqb_refl. simpl.
  unfold wrap, in_range in *.
  destruct (Z.eqb_spec size 0) as [-> | Hnz].
  - rewrite Z.add_0_r, Z.mod_small by lia. apply Z.eqb_refl.
  - apply Z.eqb_neq.
    destruct (Z_lt_le_dec (GetIndex collectionStart + size) (2 ^ cluster_bits))
      as [Hlt | Hge].
    + rewrite Z.mod_small by lia. lia.
    + replace (GetIndex collectionStart + size)
        with ((GetIndex collectionStart + size - 2 ^ cluster_bits) + 1 * 2 ^ cluster_bits)
        by lia.
      rewrite Z.mod_add by lia. rewrite Z.mod_small by lia. lia.
Qed.

(** X16: [GetCollectionRange] and [operator()] of the collection view make
    one call of [GetCollectionInfo] each and throw exactly what it throws. *)
Theorem collection_view_fails_only_as_the_field_does
  (v : RNTupleCollectionView) (idx : AnyIndex) (log : list Event) (e : Exception) :
  fst (GetCollectionRange v idx log) = log ++ [EvGetCollectionInfo idx] /\
  fst (collection_call_op v idx log) = log ++ [EvGetCollectionInfo idx] /\
  (snd (GetCollectionRange v idx log) = Throw e <->
   GetCollectionInfo (fField (base v)) idx = Throw e) /\
  (snd (collection_call_op v idx log) = Throw e <->
   GetCollectionInfo (fField (base v)) idx = Throw e).
Proof.
  unfold GetCollectionRange, collection_call_op. run_monad.
  destruct (GetCollectionInfo (fField (base v)) idx) as [[start size] | e0]; simpl;
    repeat split; intros Heq; congruence.
Qed.

End CollectionViewFurther.

Section CollectionViewConstruction.
Context `{Storage} {F P : Type} `{!RCollectionField F P}.

(** X17: the constructor of the collection view runs the constructor of the
    typed view it derives from, with its check: over a field with the
    mappable trait and read callbacks no collection view is built, and the
    "view disallowed" exception is thrown after the connection. *)
Theorem collection_view_inherits_the_check
  (fieldId : DescriptorId_t) (source : RPageSource) (name : string) (f : F)
  (log : list Event) :
  GetFieldName (GetSharedDescriptorGuard source) fieldId = Ok name ->
  CallConnectPageSourceOnField (SetOnDiskId fieldId (RField_new name)) source = Ok f ->
  Z.land (GetTraits f) kTraitMappable <> 0 ->
  HasReadCallbacks f = true ->
  RNTupleCollectionView_new fieldId source log
  = (log ++ [EvGetFieldDescriptor fieldId; EvConnect fieldId], Throw IncompatibleView).
Proof.
  intros Hname Hconnect Htraits Hcallbacks.
  apply Z.eqb_neq in Htraits.
  unfold RNTupleCollectionView_new, RNTupleView_new. run_monad.
  rewrite Hname, Hconnect, Htraits, Hcallbacks, <- app_assoc. reflexivity.
Qed.

End CollectionViewConstruction.

Lemma collection_view_inherits_the_check_witness :
  @RNTupleCollectionView_new storage64 _ _
    (@SpecModel.collection_field util64 4 mappable_with_callback) 1 events []
  = ([EvGetFieldDescriptor 1; EvConnect 1], Throw IncompatibleView).
Proof.
  apply (@collection_view_inherits_the_check storage64 _ _
           (@SpecModel.collection_field util64 4 mappable_with_callback) 1 events
           "pt"%string
           (SpecModel.mkField "pt" 1 mappable_with_callback [[10; 20]; [30]]) []).
  - reflexivity.
  - reflexivity.
  - simpl. discriminate.
  - reflexivity.
Defined.

Lemma resolved_name_runs_the_constructor_witness :
  @GetView util64 storage64 _ _ _ _ (field64 mappable_plain) hits_view "x" []
  = @RNTupleView_new storage64 _ _ _ (field64 mappable_plain) 5 events
      [EvFindFieldId "x" 4].
Proof.
  apply (@resolved_name_runs_the_constructor util64 storage64 _ _ collection_field64
           _ _ _ (field64 mappable_plain) hits_view "x" []).
  vm_compute. discriminate.
Defined.

Lemma child_collection_is_scoped_under_its_field_witness :
  exists child : RNTupleCollectionView,
    @GetCollectionView util64 storage64 _ _ collection_field64 hits_view "x" []
    = ([EvFindFieldId "x" 4; EvGetFieldDescriptor 5; EvConnect 5], Ok child) /\
    fSource child = events /\
    fCollectionFieldId child = 5.
Proof.
  destruct (@child_collection_is_scoped_under_its_field util64 storage64 _ _
              collection_field64 hits_view "x" "x" 5
              (SpecModel.mkField "x" 5 not_mappable [[1; 2; 3; 4; 5]; [6]]) [])
    as (child & Hrun & Hsource & Hid & _).
  - reflexivity.
  - vm_compute. discriminate.
  - reflexivity.
  - reflexivity.
  - reflexivity.
  - exists child. repeat split; assumption.
Defined.

Lemma collection_range_is_empty_iff_no_children_witness :
  exists r : ClusterRange.RNTupleClusterRange,
    @GetCollectionRange util64 storage64 _ _ collection_field64 hits_view (Global 1) []
    = ([EvGetCollectionInfo (Global 1)], Ok r) /\
    ClusterRange.eqb (ClusterRange.begin r) (ClusterRange.end_ r) = true.
Proof.
  apply (@collection_range_is_empty_iff_no_children util64 storage64 _ _
           collection_field64 hits_view (Global 1) (mkRClusterIndex 0 2) 0 []).
  - reflexivity.
  - unfold in_range; simpl; lia.
  - unfold in_range; simpl; lia.
Defined.
